(** * Server-authoritative build timer: resource ledger, build registry,
      transactional start, completion engine, scheduler tick and recovery sweep.

    Shallow embedding of
    - [BuildTimerService] (build-timer.service.ts): [startBuild],
      [getBuildsToComplete], [completeBuild], [validateDuration],
      [recoverCompletedBuilds];
    - [SchedulerService.processCompletedBuilds] (scheduler.service.ts);
    - the entities [Build], [UserResources] and the request type
      [StartBuildDto] with its declared constraints.

    Conventions of the model.
    - JavaScript numbers in integer columns and [Date.getTime()] milliseconds
      are [Z]: amounts, durations and times are whole numbers inside the
      range of [Date] (at most 8.64e15 ms from the epoch).  Fractional
      durations and Invalid Date are not represented.
    - The world carries the driver of the data source.  The locked read of
      [startBuild] depends on it: TypeORM refuses [pessimistic_write] on
      sqlite, the driver [database.module.ts] configures.
    - The two tables are finite maps keyed by their primary key.
    - Every [await] on the store is one [storeCall]: it consumes one entry of
      a schedule carried by the world; the entry says how much wall-clock time
      the call takes and whether the store throws.  An exhausted schedule means
      the store answers at once and without error.
    - A query runner's transaction is a working copy of the tables: the
      manager reads and writes the copy, [commitTransaction] installs it
      (or raises and installs nothing), [rollbackTransaction] and [release]
      discard it.  Repository calls go to the committed tables directly.
    - The ORM-managed columns [createdAt] / [updatedAt] are never read or
      written by the code modelled here and are left out. *)

From Stdlib Require Import ZArith Lia.
From stdpp Require Import base gmap strings list fin_maps sorting.

Local Open Scope string_scope.
Local Open Scope Z_scope.

(** ** Entities *)

(** build.entity.ts: [enum BuildStatus]. *)
Inductive BuildStatus := PENDING | RUNNING | COMPLETED | FAILED.

#[global] Instance BuildStatus_eq_dec : EqDecision BuildStatus.
Proof. solve_decision. Defined.

(** build.entity.ts: [class Build]. *)
Record Build := mkBuild {
  id : string;
  userId : string;
  buildType : string;
  startTime : Z;
  executeAt : Z;
  endTime : option Z;
  duration : option Z;
  status : BuildStatus;
  isValid : bool;
  errorMessage : option string;
  woodCost : Z;
  clayCost : Z;
  ironCost : Z;
  cropCost : Z
}.

(** user-resources.entity.ts: [class UserResources]. *)
Record UserResources := mkUserResources {
  ur_userId : string;
  wood : Z;
  clay : Z;
  iron : Z;
  crop : Z
}.

(** dto/start-build.dto.ts: [class StartBuildDto]; the four costs are
    optional properties. *)
Record StartBuildDto := mkStartBuildDto {
  dto_userId : string;
  dto_buildType : string;
  dto_duration : Z;
  dto_woodCost : option Z;
  dto_clayCost : option Z;
  dto_ironCost : option Z;
  dto_cropCost : option Z
}.

(** [c || 0] on an optional number: [undefined] and [0] both give [0]. *)
Definition orZero (c : option Z) : Z :=
  match c with
  | Some v => if Z.eqb v 0 then 0 else v
  | None => 0
  end.

(** ** The store and the world *)

Record DB := mkDB {
  users : gmap string UserResources;
  builds : gmap string Build
}.

(** One store round trip: the time it takes and the error it raises, if any. *)
Record Step := mkStep {
  elapsed : N;
  fault : option string
}.

(** The [type] option of the data source: the driver TypeORM talks through.
    [database.module.ts] configures [sqlite]. *)
Inductive DatabaseType := sqlite | mysql | postgres.

Definition databaseModule : DatabaseType := sqlite.

(** Whether the driver can build a query with
    [lock: { mode: 'pessimistic_write' }] (SELECT ... FOR UPDATE). TypeORM
    refuses the lock on sqlite. *)
Definition pessimisticWriteSupported (t : DatabaseType) : bool :=
  match t with
  | sqlite => false
  | mysql | postgres => true
  end.

Record World := mkWorld {
  db : DB;                 (* committed tables *)
  tx : option DB;          (* working copy of the open transaction *)
  clock : Z;               (* what [new Date().getTime()] returns now *)
  sched : list Step;       (* behaviour of the coming store calls *)
  isProcessing : bool;     (* SchedulerService.isProcessing *)
  driver : DatabaseType    (* the data source's driver *)
}.

Definition set_db (d : DB) (w : World) : World :=
  mkWorld d (tx w) (clock w) (sched w) (isProcessing w) (driver w).
Definition set_tx (t : option DB) (w : World) : World :=
  mkWorld (db w) t (clock w) (sched w) (isProcessing w) (driver w).
Definition set_isProcessing (b : bool) (w : World) : World :=
  mkWorld (db w) (tx w) (clock w) (sched w) b (driver w).

(** ** Exceptions and the monad of service code *)

Inductive Exn :=
  | NotFoundException (msg : string)
  | BadRequestException (msg : string)
  | QueryFailedError (msg : string)
  | LockNotSupportedOnGivenDriverError.

(** [error.message] *)
Definition message (e : Exn) : string :=
  match e with
  | NotFoundException m | BadRequestException m | QueryFailedError m => m
  | LockNotSupportedOnGivenDriverError => "Locking not supported on given driver."
  end.

Inductive Result (A : Type) :=
  | Ok (a : A)
  | Throw (e : Exn).
Arguments Ok {A} a.
Arguments Throw {A} e.

Definition M (A : Type) : Type := World -> Result A * World.

Definition ret {A} (a : A) : M A := fun w => (Ok a, w).
Definition throw {A} (e : Exn) : M A := fun w => (Throw e, w).
Definition bind {A B} (m : M A) (k : A -> M B) : M B :=
  fun w => match m w with
           | (Ok a, w') => k a w'
           | (Throw e, w') => (Throw e, w')
           end.

Declare Scope svc_scope.
Delimit Scope svc_scope with svc.
Notation "x <- c1 ;; c2" := (bind c1 (fun x => c2))
  (at level 100, c1 at next level, right associativity) : svc_scope.
Notation "c1 ;;; c2" := (bind c1 (fun _ => c2))
  (at level 100, right associativity) : svc_scope.

(** [try { body } catch (e) { handler e }] *)
Definition try_catch {A} (body : M A) (handler : Exn -> M A) : M A :=
  fun w => match body w with
           | (Ok a, w') => (Ok a, w')
           | (Throw e, w') => handler e w'
           end.

(** [... finally { fin }]: [fin] always runs; an exception of [fin]
    replaces the outcome of the body. *)
Definition finally {A} (body : M A) (fin : M unit) : M A :=
  fun w => match body w with
           | (r, w') =>
               match fin w' with
               | (Ok _, w'') => (r, w'')
               | (Throw e, w'') => (Throw e, w'')
               end
           end.

Definition get : M World := fun w => (Ok w, w).
Definition modify (f : World -> World) : M unit := fun w => (Ok tt, f w).

(** [new Date().getTime()] *)
Definition newDate : M Z := fun w => (Ok (clock w), w).

(** One awaited round trip to the store. *)
Definition storeCall : M unit :=
  fun w =>
    match sched w with
    | [] => (Ok tt, w)
    | s :: rest =>
        let w' := mkWorld (db w) (tx w) (clock w + Z.of_N (elapsed s)) rest
                    (isProcessing w) (driver w) in
        match fault s with
        | Some m => (Throw (QueryFailedError m), w')
        | None => (Ok tt, w')
        end
    end.

(** The tables a manager call of the query runner works on. *)
Definition txView (w : World) : DB :=
  match tx w with
  | Some d => d
  | None => db w
  end.

Definition txWrite (d : DB) (w : World) : World :=
  match tx w with
  | Some _ => set_tx (Some d) w
  | None => set_db d w
  end.

Module QueryRunner.
Local Open Scope svc_scope.

(** [connect()] and [release()] are connection bookkeeping: neither sends a
    statement to the database.  [release] drops whatever the transaction has
    not committed. *)
Definition connect : M unit := ret tt.

Definition startTransaction : M unit :=
  storeCall ;;; modify (fun w => set_tx (Some (db w)) w).

Definition commitTransaction : M unit :=
  storeCall ;;; modify (fun w => set_tx None (set_db (txView w) w)).

Definition rollbackTransaction : M unit :=
  storeCall ;;; modify (set_tx None).

Definition release : M unit := modify (set_tx None).

(** [manager.findOne(UserResources, { where: { userId },
    lock: { mode: 'pessimistic_write' } })]. TypeORM writes the lock into
    the SELECT while it builds the query; for a driver without it the query
    builder throws and nothing is sent to the database. *)
Definition findOneUserResources (uid : string) : M (option UserResources) :=
  w0 <- get ;;
  if pessimisticWriteSupported (driver w0)
  then storeCall ;;; w <- get ;; ret (users (txView w) !! uid)
  else throw LockNotSupportedOnGivenDriverError.

(** [manager.save(userResources)] *)
Definition saveUserResources (ur : UserResources) : M UserResources :=
  storeCall ;;;
  modify (fun w =>
    let d := txView w in
    txWrite (mkDB (<[ur_userId ur := ur]> (users d)) (builds d)) w) ;;;
  ret ur.

(** [manager.save(manager.create(Build, fields))]: the entity has no id
    yet; the store generates a key that is not in the table. *)
Definition saveNewBuild (fields : string -> Build) : M Build :=
  storeCall ;;;
  w <- get ;;
  let d := txView w in
  let b := fields (fresh (dom (builds d))) in
  modify (txWrite (mkDB (users d) (<[id b := b]> (builds d)))) ;;;
  ret b.
End QueryRunner.

(** ** BuildTimerService.startBuild *)

(** The resource check: [userResources.wood < (dto.woodCost || 0) || ...]. *)
Definition insufficient (ur : UserResources) (dto : StartBuildDto) : bool :=
  (wood ur <? orZero (dto_woodCost dto)) ||
  (clay ur <? orZero (dto_clayCost dto)) ||
  (iron ur <? orZero (dto_ironCost dto)) ||
  (crop ur <? orZero (dto_cropCost dto)).

(** The four assignments [userResources.wood -= dto.woodCost || 0; ...]. *)
Definition deduct (ur : UserResources) (dto : StartBuildDto) : UserResources :=
  mkUserResources (ur_userId ur)
    (wood ur - orZero (dto_woodCost dto))
    (clay ur - orZero (dto_clayCost dto))
    (iron ur - orZero (dto_ironCost dto))
    (crop ur - orZero (dto_cropCost dto)).

(** The fields given to [manager.create(Build, {...})], with
    [executeAt = new Date(startTime.getTime() + dto.duration)], a whole
    number of milliseconds inside the range of [Date]; the columns not given
    are null. *)
Definition newBuild (dto : StartBuildDto) (start : Z) (i : string) : Build :=
  {| id := i;
     userId := dto_userId dto;
     buildType := dto_buildType dto;
     startTime := start;
     executeAt := start + dto_duration dto;
     endTime := None;
     duration := None;
     status := RUNNING;
     isValid := true;
     errorMessage := None;
     woodCost := orZero (dto_woodCost dto);
     clayCost := orZero (dto_clayCost dto);
     ironCost := orZero (dto_ironCost dto);
     cropCost := orZero (dto_cropCost dto) |}.

(** [connect] and [startTransaction] come before the [try]; the [catch]
    rolls back and rethrows; the [finally] releases the runner. *)
Definition startBuild (dto : StartBuildDto) : M Build :=
  (QueryRunner.connect ;;;
   QueryRunner.startTransaction ;;;
   finally
     (try_catch
        (userResources <- QueryRunner.findOneUserResources (dto_userId dto) ;;
         match userResources with
         | None =>
             throw (NotFoundException ("User " ++ dto_userId dto ++ " not found"))
         | Some userResources =>
             if insufficient userResources dto
             then throw (BadRequestException "Insufficient resources")
             else
               QueryRunner.saveUserResources (deduct userResources dto) ;;;
               startTime <- newDate ;;
               savedBuild <- QueryRunner.saveNewBuild (newBuild dto startTime) ;;
               QueryRunner.commitTransaction ;;;
               ret savedBuild
         end)
        (fun error => QueryRunner.rollbackTransaction ;;; throw error))
     QueryRunner.release)%svc.

(** ** Repository calls of the service (outside any transaction) *)

(** The range query of [getBuildsToComplete]:
    [WHERE status = 'running' AND executeAt <= :now ORDER BY executeAt ASC]. *)
Definition isDue (now : Z) (b : Build) : Prop :=
  status b = RUNNING ∧ executeAt b ≤ now.

#[global] Instance isDue_dec now b : Decision (isDue now b).
Proof. unfold isDue. apply _. Defined.

Definition byExecuteAt (a b : Build) : Prop := executeAt a ≤ executeAt b.

#[global] Instance byExecuteAt_dec : RelDecision byExecuteAt.
Proof. intros a b. unfold byExecuteAt. apply _. Defined.

#[global] Instance byExecuteAt_trans : Transitive byExecuteAt.
Proof. unfold byExecuteAt. intros a b c. lia. Qed.

#[global] Instance byExecuteAt_total : Total byExecuteAt.
Proof. unfold byExecuteAt. intros a b. lia. Qed.

Definition rows (d : DB) : list Build := (map_to_list (builds d)).*2.

Definition findDue (now : Z) (d : DB) : list Build :=
  merge_sort byExecuteAt (filter (isDue now) (rows d)).

Module BuildRepository.
Local Open Scope svc_scope.

(** [findOne({ where: { id } })] *)
Definition findOne (i : string) : M (option Build) :=
  storeCall ;;; w <- get ;; ret (builds (db w) !! i).

(** [save(build)] of an entity that carries its id *)
Definition save (b : Build) : M Build :=
  storeCall ;;;
  modify (fun w =>
    set_db (mkDB (users (db w)) (<[id b := b]> (builds (db w)))) w) ;;;
  ret b.

(** [createQueryBuilder('build').where(..).andWhere(..).orderBy(..).getMany()] *)
Definition getManyDue (now : Z) : M (list Build) :=
  storeCall ;;; w <- get ;; ret (findDue now (db w)).
End BuildRepository.

(** ** BuildTimerService: due query, completion, recovery *)

(** [now] is read before the query is sent. *)
Definition getBuildsToComplete : M (list Build) :=
  (now <- newDate ;;
   BuildRepository.getManyDue now)%svc.

(** [return duration > 0;] *)
Definition validateDuration (duration : Z) : bool := 0 <? duration.

(** The assignments of [completeBuild] to the loaded entity. *)
Definition completed (build : Build) (end_ : Z) (st : BuildStatus) : Build :=
  {| id := id build;
     userId := userId build;
     buildType := buildType build;
     startTime := startTime build;
     executeAt := executeAt build;
     endTime := Some end_;
     duration := Some (end_ - startTime build);
     status := st;
     isValid := validateDuration (end_ - startTime build);
     errorMessage := errorMessage build;
     woodCost := woodCost build;
     clayCost := clayCost build;
     ironCost := ironCost build;
     cropCost := cropCost build |}.

(** [new BadRequestException(`Build ${buildId} is not running`)] *)
Definition notRunning (buildId : string) : Exn :=
  BadRequestException ("Build " ++ buildId ++ " is not running").

(** [completeBuild(buildId, status = BuildStatus.COMPLETED)]; callers pass
    the status explicitly here.  The end time is read after the record has
    been loaded. *)
Definition completeBuild (buildId : string) (st : BuildStatus) : M Build :=
  (build <- BuildRepository.findOne buildId ;;
   match build with
   | None =>
       throw (NotFoundException ("Build " ++ buildId ++ " not found"))
   | Some build =>
       if decide (status build = RUNNING)
       then
         endTime <- newDate ;;
         BuildRepository.save (completed build endTime st)
       else throw (notRunning buildId)
   end)%svc.

(** The assignments of the [catch] block of [recoverCompletedBuilds] to the
    entity of the batch. *)
Definition markFailed (build : Build) (error : Exn) : Build :=
  {| id := id build;
     userId := userId build;
     buildType := buildType build;
     startTime := startTime build;
     executeAt := executeAt build;
     endTime := endTime build;
     duration := duration build;
     status := FAILED;
     isValid := isValid build;
     errorMessage := Some (message error);
     woodCost := woodCost build;
     clayCost := clayCost build;
     ironCost := ironCost build;
     cropCost := cropCost build |}.

(** The [for] loop of [recoverCompletedBuilds]; [recovered] is the counter. *)
Fixpoint recoverEach (buildsToComplete : list Build) (recovered : nat) : M nat :=
  match buildsToComplete with
  | [] => ret recovered
  | build :: rest =>
      (recovered' <-
         try_catch
           (completeBuild (id build) COMPLETED ;;; ret (S recovered))
           (fun error =>
              BuildRepository.save (markFailed build error) ;;; ret recovered) ;;
       recoverEach rest recovered')%svc
  end.

(** Nothing guards the sweep as a whole: an exception that leaves the loop
    leaves [recoverCompletedBuilds]. *)
Definition recoverCompletedBuilds : M nat :=
  (buildsToComplete <- getBuildsToComplete ;;
   recoverEach buildsToComplete 0%nat)%svc.

(** ** SchedulerService.processCompletedBuilds *)

(** The [for] loop of the tick. *)
Fixpoint processEach (buildsToComplete : list Build) : M unit :=
  match buildsToComplete with
  | [] => ret tt
  | build :: rest =>
      (try_catch
         (completeBuild (id build) COMPLETED ;;; ret tt)
         (fun error => completeBuild (id build) FAILED ;;; ret tt) ;;;
       processEach rest)%svc
  end.

(** The tick: skipped while [isProcessing]; the outer [catch] only logs;
    the [finally] clears the flag. *)
Definition processCompletedBuilds : M unit :=
  (w <- get ;;
   if isProcessing w then ret tt
   else
     modify (set_isProcessing true) ;;;
     finally
       (try_catch
          (buildsToComplete <- getBuildsToComplete ;;
           if (0 <? length buildsToComplete)%nat
           then processEach buildsToComplete
           else ret tt)
          (fun error => ret tt))
       (modify (set_isProcessing false)))%svc.

(** ** Request validation declared on [StartBuildDto] *)



(** [BuildTimerController.startBuild]: [@Post('start')] hands the body to
    the service. *)
Definition controller_startBuild (dto : StartBuildDto) : M Build :=
  startBuild dto.


(** A sequence of [startBuild] calls, one after the other; each call may
    succeed or throw. *)
Fixpoint startBuilds (calls : list StartBuildDto) (w : World) : World :=
  match calls with
  | [] => w
  | dto :: rest => startBuilds rest (startBuild dto w).2
  end.

(** ** Well-keyed tables, quiet schedules *)

(** Primary keys: every row sits under its own key. *)
Definition keyed (d : DB) : Prop :=
  map_Forall (fun k ur => ur_userId ur = k) (users d) ∧
  map_Forall (fun k b => id b = k) (builds d).

(** No store call of the schedule raises an error. *)
Definition quiet (w : World) : Prop :=
  Forall (fun s => fault s = None) (sched w).

(** Some named quantity of the request exceeds the balance. *)
Definition exceeds (ur : UserResources) (dto : StartBuildDto) : Prop :=
  wood ur < default 0 (dto_woodCost dto) ∨
  clay ur < default 0 (dto_clayCost dto) ∨
  iron ur < default 0 (dto_ironCost dto) ∨
  crop ur < default 0 (dto_cropCost dto).


(** Every balance field of every user is non-negative. *)
Definition nonNegative (d : DB) : Prop :=
  map_Forall (fun _ ur => 0 ≤ wood ur ∧ 0 ≤ clay ur ∧ 0 ≤ iron ur ∧ 0 ≤ crop ur)
    (users d).

(** Every record of the batch [l] is stored under its id and Running, and
    no id occurs twice. *)
Definition pending (l : list Build) (w : World) : Prop :=
  NoDup (id <$> l) ∧
  ∀ b, b ∈ l → builds (db w) !! id b = Some b ∧ status b = RUNNING.

(** [w'] is [w] after every record of the batch [l], and nothing else, has
    been completed. *)
Definition swept (l : list Build) (w w' : World) : Prop :=
  quiet w' ∧ clock w ≤ clock w' ∧
  users (db w') = users (db w) ∧
  (∀ i, i ∉ id <$> l → builds (db w') !! i = builds (db w) !! i) ∧
  (∀ b, b ∈ l →
     ∃ t, clock w ≤ t ∧
          builds (db w') !! id b = Some (completed b t COMPLETED)).

(** From [w] to [w']: every record that was due at the time of [w] is
    Completed with the elapsed time as duration; every other record, and the
    ledger, is as before; no record was added. *)
Definition allDueCompleted (w w' : World) : Prop :=
  users (db w') = users (db w) ∧
  (∀ i, builds (db w) !! i = None → builds (db w') !! i = None) ∧
  (∀ i b, builds (db w) !! i = Some b →
     if decide (isDue (clock w) b)
     then ∃ t, clock w ≤ t ∧
               builds (db w') !! i = Some (completed b t COMPLETED)
     else builds (db w') !! i = Some b).

(** ** Concrete scenarios *)

Definition ex_ledger (w : Z) : gmap string UserResources :=
  {[ "u1" := mkUserResources "u1" w 0 0 0 ]}.

Definition ex_build (i : string) (due : Z) (st : BuildStatus) : Build :=
  mkBuild i "u1" "barracks" 0 due None None st true None 0 0 0 0.

(** An empty registry and a ledger with [w] wood, at time 1000. *)
Definition ex_fresh (w : Z) : World :=
  mkWorld (mkDB (ex_ledger w) ∅) None 1000 [] false databaseModule.

Definition ex_dto (ty : string) (d : Z) (w : Z) : StartBuildDto :=
  mkStartBuildDto "u1" ty d (Some w) None None None.

(** Two Running records that are due at time 1000, one that is not yet due,
    and a Completed one. *)
Definition ex_registry : gmap string Build :=
  <["a" := ex_build "a" 300 RUNNING]>
    (<["b" := ex_build "b" 500 RUNNING]>
       (<["c" := ex_build "c" 1300 RUNNING]>
          (<["d" := ex_build "d" 100 COMPLETED]> ∅))).

Definition ex_world (schedule : list Step) : World :=
  mkWorld (mkDB (ex_ledger 10) ex_registry) None 1000 schedule false
    databaseModule.

(** The store answers the query and the first load, then fails twice. *)
Definition ex_outage : list Step :=
  [ mkStep 1 None; mkStep 1 None;
    mkStep 1 (Some "SQLITE_BUSY"); mkStep 1 (Some "SQLITE_BUSY") ].

(** The store answers the query and the first load, then fails once. *)
Definition ex_hiccup : list Step :=
  [ mkStep 1 None; mkStep 1 None; mkStep 1 (Some "SQLITE_BUSY") ].

(** ** The remaining operations of the service and of the scheduler *)

(** [order: { startTime: 'DESC' }] *)
Definition byStartTimeDesc (a b : Build) : Prop := startTime b ≤ startTime a.

#[global] Instance byStartTimeDesc_dec : RelDecision byStartTimeDesc.
Proof. intros a b. unfold byStartTimeDesc. apply _. Defined.

#[global] Instance byStartTimeDesc_trans : Transitive byStartTimeDesc.
Proof. unfold byStartTimeDesc. intros a b c. lia. Qed.

#[global] Instance byStartTimeDesc_total : Total byStartTimeDesc.
Proof. unfold byStartTimeDesc. intros a b. lia. Qed.

(** [find({ where: { userId }, order: { startTime: 'DESC' } })] *)
Definition findByUser (uid : string) (d : DB) : list Build :=
  merge_sort byStartTimeDesc (filter (fun b => userId b = uid) (rows d)).

(** [find({ where: { status: RUNNING }, order: { executeAt: 'ASC' } })] *)
Definition findRunning (d : DB) : list Build :=
  merge_sort byExecuteAt (filter (fun b => status b = RUNNING) (rows d)).

(** [BuildTimerService.getBuild] *)
Definition getBuild (buildId : string) : M Build :=
  (build <- BuildRepository.findOne buildId ;;
   match build with
   | None => throw (NotFoundException ("Build " ++ buildId ++ " not found"))
   | Some build => ret build
   end)%svc.

(** [BuildTimerService.getUserBuilds] *)
Definition getUserBuilds (uid : string) : M (list Build) :=
  (storeCall ;;; w <- get ;; ret (findByUser uid (db w)))%svc.

(** [BuildTimerService.getRunningBuilds] *)
Definition getRunningBuilds : M (list Build) :=
  (storeCall ;;; w <- get ;; ret (findRunning (db w)))%svc.

(** [SchedulerService.onModuleInit]: the sweep, then a log line. *)
Definition onModuleInit : M unit :=
  (recovered <- recoverCompletedBuilds ;; ret tt)%svc.

(** ** Runs of the system *)

(** What can happen to the service, one thing after the other: a start
    request, a completion call, a scheduler tick, the start-up hook, or time
    passing. *)
Inductive Op :=
  | OpStart (dto : StartBuildDto)
  | OpComplete (buildId : string) (st : BuildStatus)
  | OpTick
  | OpInit
  | OpWait (ms : N).

Definition perform (o : Op) (w : World) : World :=
  match o with
  | OpStart dto => (startBuild dto w).2
  | OpComplete i st => (completeBuild i st w).2
  | OpTick => (processCompletedBuilds w).2
  | OpInit => (onModuleInit w).2
  | OpWait ms =>
      mkWorld (db w) (tx w) (clock w + Z.of_N ms) (sched w) (isProcessing w)
        (driver w)
  end.

Fixpoint performAll (ops : list Op) (w : World) : World :=
  match ops with
  | [] => w
  | o :: rest => performAll rest (perform o w)
  end.

(** The columns of a record that are fixed when it is created. *)
Definition sameCore (a b : Build) : Prop :=
  id a = id b ∧ userId a = userId b ∧ buildType a = buildType b ∧
  startTime a = startTime b ∧ executeAt a = executeAt b ∧
  woodCost a = woodCost b ∧ clayCost a = clayCost b ∧
  ironCost a = ironCost b ∧ cropCost a = cropCost b.

(** [d'] is [d] after some stored Running records with ids in [ids] have
    been overwritten by records with the same fixed columns; nothing else
    differs. *)
Inductive rewritten (ids : list string) : DB → DB → Prop :=
  | rewritten_refl d : rewritten ids d d
  | rewritten_step d i b0 b' d' :
      i ∈ ids →
      builds d !! i = Some b0 →
      status b0 = RUNNING →
      sameCore b0 b' →
      rewritten ids (mkDB (users d) (<[i := b']> (builds d))) d' →
      rewritten ids d d'.

(** The four resources, their balance field and their cost column. *)
Inductive Resource := Wood | Clay | Iron | Crop.

Definition balanceOf (r : Resource) (ur : UserResources) : Z :=
  match r with
  | Wood => wood ur | Clay => clay ur | Iron => iron ur | Crop => crop ur
  end.

Definition costOf (r : Resource) (b : Build) : Z :=
  match r with
  | Wood => woodCost b | Clay => clayCost b
  | Iron => ironCost b | Crop => cropCost b
  end.

Definition sumZ (l : list Z) : Z := foldr Z.add 0 l.

(** What user [u] holds of resource [r] (nothing without a row), and what
    the records of [u] say was paid in [r]. *)
Definition held (r : Resource) (u : string) (d : DB) : Z :=
  from_option (balanceOf r) 0 (users d !! u).

Definition paid (r : Resource) (u : string) (d : DB) : Z :=
  sumZ ((fun b => if decide (userId b = u) then costOf r b else 0) <$> rows d).

(** [d'] is [d] after a successful [startBuild dto]: the balance of the
    user is deducted and one record is added under a key that was free. *)
Definition started (dto : StartBuildDto) (d d' : DB) : Prop :=
  ∃ ur t,
    users d !! dto_userId dto = Some ur ∧
    insufficient ur dto = false ∧
    d' = mkDB (<[dto_userId dto := deduct ur dto]> (users d))
              (<[fresh (dom (builds d)) :=
                   newBuild dto t (fresh (dom (builds d)))]> (builds d)).


Definition isCompletedIn (d' : DB) (b : Build) : Prop :=
  status <$> builds d' !! id b = Some COMPLETED.

#[global] Instance isCompletedIn_dec d' b : Decision (isCompletedIn d' b).
Proof. unfold isCompletedIn. apply _. Defined.

(** ** The in-memory timer (the class [BuildTimer])

    A second, stand-alone timer without ledger or store.  Its [Map] keeps
    insertion order, so it is an association list here; [new Date()] is the
    argument [now]; [Infinity] as upper bound is [None].  The class hands out
    the objects it stores; what follows is about the methods of the class,
    not about callers that assign to those objects. *)

Inductive TimerStatus := TRunning | TCompleted | TFailed.

#[global] Instance TimerStatus_eq_dec : EqDecision TimerStatus.
Proof. solve_decision. Defined.

(** The type ['completed' | 'failed'] of the status argument of [stopBuild]. *)
Inductive FinalStatus := FinalCompleted | FinalFailed.

Definition toStatus (f : FinalStatus) : TimerStatus :=
  match f with
  | FinalCompleted => TCompleted
  | FinalFailed => TFailed
  end.

(** [interface BuildTimerResult] *)
Record BuildTimerResult := mkTimerResult {
  tr_buildId : string;
  tr_startTime : Z;
  tr_endTime : option Z;
  tr_duration : option Z;
  tr_status : TimerStatus;
  tr_isValid : bool
}.

(** [Required<BuildTimerOptions>] *)
Record BuildTimerOptions := mkTimerOptions {
  maxDuration : option Z;
  minDuration : Z
}.

Record BuildTimer := mkBuildTimer {
  tm_builds : list (string * BuildTimerResult);
  tm_options : BuildTimerOptions
}.

(** [Map.prototype.get / has / set / delete / values] on an insertion-ordered
    list of entries; [set] on a key that is present keeps its place. *)
Fixpoint mapGet {V} (k : string) (m : list (string * V)) : option V :=
  match m with
  | [] => None
  | (k', v) :: m' => if decide (k' = k) then Some v else mapGet k m'
  end.

Definition mapHas {V} (k : string) (m : list (string * V)) : bool :=
  match mapGet k m with
  | Some _ => true
  | None => false
  end.

Fixpoint mapSet {V} (k : string) (v : V) (m : list (string * V))
  : list (string * V) :=
  match m with
  | [] => [(k, v)]
  | (k', v') :: m' =>
      if decide (k' = k) then (k, v) :: m' else (k', v') :: mapSet k v m'
  end.

Definition mapDelete {V} (k : string) (m : list (string * V))
  : list (string * V) :=
  filter (fun e => e.1 ≠ k) m.

Definition mapValues {V} (m : list (string * V)) : list V := m.*2.

(** [new BuildTimer(options)]: [maxDuration ?? Infinity], [minDuration ?? 0]. *)
Definition newBuildTimer (max min : option Z) : BuildTimer :=
  mkBuildTimer [] (mkTimerOptions max (default 0 min)).

(** A method either returns or throws [new Error(msg)]. *)
Inductive Outcome (A : Type) :=
  | Returns (a : A)
  | Throws (msg : string).
Arguments Returns {A} a.
Arguments Throws {A} msg.

(** The double quote inside the messages of the class. *)
Definition dq : string := String (Ascii.ascii_of_nat 34) EmptyString.

Definition timerMessage (buildId what : string) : string :=
  "Build with ID " ++ dq ++ buildId ++ dq ++ what.

(** [BuildTimer.startBuild] *)
Definition timer_startBuild (now : Z) (buildId : string) (t : BuildTimer)
  : Outcome BuildTimerResult * BuildTimer :=
  if mapHas buildId (tm_builds t)
  then (Throws (timerMessage buildId " already exists"), t)
  else
    let result := mkTimerResult buildId now None None TRunning true in
    (Returns result,
     mkBuildTimer (mapSet buildId result (tm_builds t)) (tm_options t)).

(** [BuildTimer.validateDuration] *)
Definition timer_validateDuration (o : BuildTimerOptions) (duration : Z) : bool :=
  if duration <? minDuration o then false
  else match maxDuration o with
       | Some max => if max <? duration then false else true
       | None => true
       end.

(** [BuildTimer.stopBuild] *)
Definition timer_stopBuild (now : Z) (buildId : string) (st : FinalStatus)
    (t : BuildTimer) : Outcome BuildTimerResult * BuildTimer :=
  match mapGet buildId (tm_builds t) with
  | None => (Throws (timerMessage buildId " not found"), t)
  | Some build =>
      if decide (tr_status build = TRunning)
      then
        let duration := now - tr_startTime build in
        let isValid := timer_validateDuration (tm_options t) duration in
        let updatedResult :=
          mkTimerResult (tr_buildId build) (tr_startTime build) (Some now)
            (Some duration) (toStatus st) isValid in
        (Returns updatedResult,
         mkBuildTimer (mapSet buildId updatedResult (tm_builds t))
           (tm_options t))
      else (Throws (timerMessage buildId " is not running"), t)
  end.

(** [BuildTimer.getBuild]; [null] is [None]. *)
Definition timer_getBuild (buildId : string) (t : BuildTimer)
  : option BuildTimerResult :=
  mapGet buildId (tm_builds t).

(** [BuildTimer.getAllBuilds] *)
Definition timer_getAllBuilds (t : BuildTimer) : list BuildTimerResult :=
  mapValues (tm_builds t).

(** [BuildTimer.validateClientEndTime]; an omitted tolerance is 5000. *)
Definition timer_validateClientEndTime (buildId : string) (clientEndTime : Z)
    (toleranceMs : option Z) (t : BuildTimer) : bool :=
  match mapGet buildId (tm_builds t) with
  | None => false
  | Some build =>
      match tr_endTime build with
      | None => false
      | Some serverEndTime =>
          Z.abs (serverEndTime - clientEndTime) <=? default 5000 toleranceMs
      end
  end.

(** [BuildTimer.clearBuild], [BuildTimer.clearAllBuilds] *)
Definition timer_clearBuild (buildId : string) (t : BuildTimer) : BuildTimer :=
  mkBuildTimer (mapDelete buildId (tm_builds t)) (tm_options t).

Definition timer_clearAllBuilds (t : BuildTimer) : BuildTimer :=
  mkBuildTimer [] (tm_options t).

(** Calls of the methods that change the timer, one after the other. *)
Inductive TimerOp :=
  | TStart (now : Z) (buildId : string)
  | TStop (now : Z) (buildId : string) (st : FinalStatus)
  | TClear (buildId : string)
  | TClearAll.

Definition timerStep (o : TimerOp) (t : BuildTimer) : BuildTimer :=
  match o with
  | TStart now i => (timer_startBuild now i t).2
  | TStop now i st => (timer_stopBuild now i st t).2
  | TClear i => timer_clearBuild i t
  | TClearAll => timer_clearAllBuilds t
  end.

Fixpoint timerRun (ops : list TimerOp) (t : BuildTimer) : BuildTimer :=
  match ops with
  | [] => t
  | o :: rest => timerRun rest (timerStep o t)
  end.

(** A result as the methods of the class leave it: running with no end, or
    stopped with duration = endTime - startTime and the verdict of
    [validateDuration] on it. *)
Definition consistent (o : BuildTimerOptions) (r : BuildTimerResult) : Prop :=
  (tr_status r = TRunning ∧ tr_endTime r = None ∧ tr_duration r = None ∧
   tr_isValid r = true) ∨
  (tr_status r ≠ TRunning ∧
   ∃ e, tr_endTime r = Some e ∧ tr_duration r = Some (e - tr_startTime r) ∧
        tr_isValid r = timer_validateDuration o (e - tr_startTime r)).

(** The entries of a timer are well formed: no id twice, every result under
    its own id and [consistent]. *)
Definition timerWf (t : BuildTimer) : Prop :=
  NoDup (tm_builds t).*1 ∧
  ∀ k r, (k, r) ∈ tm_builds t →
         tr_buildId r = k ∧ consistent (tm_options t) r.

(** A request of a user without a balance row. *)
Definition ex_stranger : StartBuildDto :=
  mkStartBuildDto "u2" "wall" 500 (Some 1) None None None.

(** A start request, a wait of two seconds, a tick and the start-up sweep. *)
Definition ex_ops : list Op :=
  [ OpStart (ex_dto "barracks" 1000 10); OpWait 2000; OpTick;
    OpComplete "d" FAILED; OpInit ].

(** A timer with bounds of 100 ms and one hour, and a build started at 0. *)
Definition ex_timer : BuildTimer :=
  (timer_startBuild 0 "x" (newBuildTimer (Some 3600000) (Some 100))).2.

(** * Properties *)

(** ** Store calls *)

Lemma storeCall_inv w r w' :
  storeCall w = (r, w') →
  ∃ c' s',
    w' = mkWorld (db w) (tx w) c' s' (isProcessing w) (driver w) ∧
    clock w ≤ c' ∧
    (r = Ok tt ∨ ∃ m, r = Throw (QueryFailedError m)) ∧
    (quiet w → Forall (fun s => fault s = None) s' ∧ r = Ok tt).
Proof.
  unfold storeCall, quiet. destruct w as [d t c s p drv]; simpl.
  destruct s as [|[el [m|]] s]; intros [= <- <-]; simpl;
    do 2 eexists; (split; [reflexivity|]);
    rewrite ?Forall_cons; simpl; intuition (eauto; try lia; try congruence).
Qed.

Lemma storeCall_quiet w :
  quiet w →
  ∃ c' s',
    storeCall w =
      (Ok tt, mkWorld (db w) (tx w) c' s' (isProcessing w) (driver w)) ∧
    clock w ≤ c' ∧ Forall (fun s => fault s = None) s'.
Proof.
  intros Hq. destruct (storeCall w) as [r w'] eqn:E.
  destruct (storeCall_inv _ _ _ E) as (c & s & -> & Hc & _ & H).
  destruct (H Hq) as [Hs ->]. eauto.
Qed.

(** Run the next store call of the goal symbolically, whatever it does. *)
Ltac store_step :=
  match goal with
  | |- context [storeCall ?w] =>
      let w' := fresh "w" in
      let E := fresh "E" in
      let c := fresh "c" in
      let s := fresh "s" in
      let Hc := fresh "Hc" in
      let Hr := fresh "Hr" in
      let r := fresh "r" in
      destruct (storeCall w) as [r w'] eqn:E;
      apply storeCall_inv in E;
      destruct E as (c & s & -> & Hc & Hr & _);
      simpl in Hc;
      destruct Hr as [-> | [? ->]];
      cbn [db tx clock sched isProcessing driver set_db set_tx set_isProcessing
           txView txWrite users builds]
  end.

(** Run the next store call of the goal under a quiet schedule. *)
Ltac quiet_step :=
  match goal with
  | |- context [storeCall ?w] =>
      let c := fresh "c" in
      let s := fresh "s" in
      let Hc := fresh "Hc" in
      let Hs := fresh "Hs" in
      let E := fresh "E" in
      destruct (storeCall_quiet w) as (c & s & E & Hc & Hs);
      [ unfold quiet; simpl; assumption
      | rewrite E; clear E; simpl in Hc;
        cbn [db tx clock sched isProcessing driver set_db set_tx set_isProcessing
             txView txWrite users builds] ]
  end.

Ltac unfold_svc :=
  unfold QueryRunner.connect, QueryRunner.startTransaction,
    QueryRunner.findOneUserResources, QueryRunner.saveUserResources,
    QueryRunner.saveNewBuild, QueryRunner.commitTransaction,
    QueryRunner.rollbackTransaction, QueryRunner.release,
    BuildRepository.findOne, BuildRepository.save, BuildRepository.getManyDue,
    finally, try_catch, bind, modify, get, ret, throw, newDate.

(** ** startBuild *)

Lemma orZero_default c : orZero c = default 0 c.
Proof. destruct c as [v|]; simpl; [|done]. destruct (Z.eqb_spec v 0); lia. Qed.

Lemma insufficient_exceeds ur dto : insufficient ur dto = true ↔ exceeds ur dto.
Proof.
  unfold insufficient, exceeds. rewrite !orZero_default, !orb_true_iff, !Z.ltb_lt.
  tauto.
Qed.

Lemma insufficient_false ur dto :
  insufficient ur dto = false →
  default 0 (dto_woodCost dto) ≤ wood ur ∧ default 0 (dto_clayCost dto) ≤ clay ur ∧
  default 0 (dto_ironCost dto) ≤ iron ur ∧ default 0 (dto_cropCost dto) ≤ crop ur.
Proof.
  intros H. assert (¬ exceeds ur dto) as Hn.
  { rewrite <- insufficient_exceeds. congruence. }
  unfold exceeds in Hn. lia.
Qed.

Lemma fresh_build_key (d : DB) : builds d !! fresh (dom (builds d)) = None.
Proof. apply not_elem_of_dom, is_fresh. Qed.

(** What a call of [startBuild] can do, under any schedule of the store. *)
Lemma startBuild_outcome dto w :
  match startBuild dto w with
  | (Ok b, w') =>
      ∃ ur t,
        users (db w) !! dto_userId dto = Some ur ∧
        insufficient ur dto = false ∧
        clock w ≤ t ∧
        b = newBuild dto t (fresh (dom (builds (db w)))) ∧
        db w' = mkDB (<[ur_userId ur := deduct ur dto]> (users (db w)))
                     (<[id b := b]> (builds (db w)))
  | (Throw e, w') =>
      db w' = db w ∧
      (e = BadRequestException "Insufficient resources" →
       ∃ ur, users (db w) !! dto_userId dto = Some ur ∧ insufficient ur dto = true)
  end.
Proof.
  unfold startBuild. unfold_svc.
  store_step; [|by split].
  destruct (pessimisticWriteSupported (driver w));
    [|repeat store_step; by split].
  store_step; [|repeat store_step; by split].
  destruct (users (db w) !! dto_userId dto) as [ur|] eqn:Hur;
    [|repeat store_step; by split].
  destruct (insufficient ur dto) eqn:Hins;
    [repeat store_step; (split; [done|]); eauto; done|].
  store_step; [|repeat store_step; by split].
  store_step; [|repeat store_step; by split].
  store_step; [|repeat store_step; by split].
  exists ur, c1. repeat split; try done. lia.
Qed.

(** With a driver that takes the lock and a store that raises no error, an
    existing user with enough of every resource gets the build. *)
Lemma startBuild_quiet dto w ur :
  pessimisticWriteSupported (driver w) = true →
  quiet w →
  users (db w) !! dto_userId dto = Some ur →
  ∃ r w',
    startBuild dto w = (r, w') ∧
    if insufficient ur dto
    then r = Throw (BadRequestException "Insufficient resources")
    else ∃ b, r = Ok b.
Proof.
  intros Hl Hq Hur. unfold quiet in Hq.
  unfold startBuild. unfold_svc.
  quiet_step. rewrite Hl. quiet_step. rewrite Hur.
  destruct (insufficient ur dto) eqn:Hins.
  - quiet_step. eauto.
  - do 3 quiet_step. eauto.
Qed.

(** [startBuild] keeps rows under their own keys. *)
Lemma startBuild_keyed dto w :
  keyed (db w) → keyed (db (startBuild dto w).2).
Proof.
  intros [Hu Hb]. pose proof (startBuild_outcome dto w) as H.
  destruct (startBuild dto w) as [[b|e] w']; simpl.
  - destruct H as (ur & t & Hur & _ & _ & -> & ->). split; simpl.
    + apply map_Forall_insert_2; [|done]. by apply Hu in Hur.
    + by apply map_Forall_insert_2.
  - destruct H as [-> _]. by split.
Qed.

(** C1.  [startBuild] is all-or-nothing.  Whatever the store does during the
    call, either the call returns the new record, and then the committed
    tables are the old ones with both the deducted balance of the user and the
    new record (under a key that was free) added; or the call throws
    (user not found, insufficient resources, or a store error at any step up
    to and including the commit), and then the committed tables are exactly
    the old ones: no deduction and no record. *)
Theorem startBuild_all_or_nothing dto w :
  keyed (db w) →
  (∃ b w' ur,
      startBuild dto w = (Ok b, w') ∧
      users (db w) !! dto_userId dto = Some ur ∧
      builds (db w) !! id b = None ∧
      db w' = mkDB (<[dto_userId dto := deduct ur dto]> (users (db w)))
                   (<[id b := b]> (builds (db w))))
  ∨ (∃ e w', startBuild dto w = (Throw e, w') ∧ db w' = db w).
Proof.
  intros [Hu _]. pose proof (startBuild_outcome dto w) as H.
  destruct (startBuild dto w) as [[b|e] w'].
  - left. destruct H as (ur & t & Hur & _ & _ & Hb & Hdb).
    exists b, w', ur. repeat split; [done| |].
    + rewrite Hb. apply fresh_build_key.
    + rewrite Hdb. by rewrite (Hu _ _ Hur).
  - right. exists e, w'. by destruct H.
Qed.

(** With a driver that does not take the lock, [startBuild] stops at the
    locked read, under any schedule of the store. *)
Lemma startBuild_without_lock dto w :
  pessimisticWriteSupported (driver w) = false →
  match startBuild dto w with
  | (Ok _, _) => False
  | (Throw e, w') =>
      db w' = db w ∧
      (e = LockNotSupportedOnGivenDriverError ∨ ∃ m, e = QueryFailedError m)
  end.
Proof.
  intros Hl. unfold startBuild. unfold_svc.
  store_step; [|split; eauto]. rewrite Hl.
  store_step; split; eauto.
Qed.

Lemma startBuild_without_lock_quiet dto w :
  pessimisticWriteSupported (driver w) = false → quiet w →
  ∃ w', startBuild dto w = (Throw LockNotSupportedOnGivenDriverError, w') ∧
        tx w' = None.
Proof.
  intros Hl Hq. unfold quiet in Hq. unfold startBuild. unfold_svc.
  quiet_step. rewrite Hl. quiet_step. eauto.
Qed.





(** C3, the code at a failing input.  The user holds 5 wood and asks for a
    wall that costs 10.  With the configured sqlite data source the call
    throws LockNotSupportedOnGivenDriverError at the locked read, before the
    balance has been loaded and compared: the balance and the registry are
    unchanged, but the exception is not 'Insufficient resources'.  With that
    data source no call of [startBuild] ever throws
    'Insufficient resources'. *)
Theorem startBuild_shortfall_not_reported :
  driver (ex_fresh 5) = databaseModule ∧
  sched (ex_fresh 5) = [] ∧
  users (db (ex_fresh 5)) !! "u1" = Some (mkUserResources "u1" 5 0 0 0) ∧
  exceeds (mkUserResources "u1" 5 0 0 0) (ex_dto "wall" 500 10) ∧
  (startBuild (ex_dto "wall" 500 10) (ex_fresh 5)).1
    = Throw LockNotSupportedOnGivenDriverError ∧
  message LockNotSupportedOnGivenDriverError ≠ "Insufficient resources" ∧
  db (startBuild (ex_dto "wall" 500 10) (ex_fresh 5)).2 = db (ex_fresh 5) ∧
  (∀ dto w w',
     driver w = databaseModule →
     startBuild dto w
     ≠ (Throw (BadRequestException "Insufficient resources"), w')).
Proof.
  do 3 (split; [vm_compute; reflexivity|]).
  split; [left; simpl; lia|].
  split; [vm_compute; reflexivity|].
  split; [discriminate|].
  split; [vm_compute; reflexivity|].
  intros dto w w' Hd E.
  pose proof (startBuild_without_lock dto w) as H. rewrite E in H.
  destruct H as [_ [H|[m H]]]; [by rewrite Hd|done|done].
Qed.


(** [startBuild] keeps every balance field non-negative. *)
Lemma startBuild_nonNegative dto w :
  nonNegative (db w) → nonNegative (db (startBuild dto w).2).
Proof.
  intros Hn. pose proof (startBuild_outcome dto w) as H.
  destruct (startBuild dto w) as [[b|e] w']; simpl.
  - destruct H as (ur & t & Hur & Hins & _ & _ & ->). unfold nonNegative; simpl.
    apply map_Forall_insert_2; [|done].
    apply insufficient_false in Hins. rewrite <- !orZero_default in Hins.
    simpl. lia.
  - by destruct H as [-> _].
Qed.

(** C10.  Ledger invariant: if every balance field of every user is
    non-negative, it stays so after any sequence of [startBuild] calls,
    whichever of them succeed or fail and whatever the store does.  (The
    costs need not even be non-negative for this.) *)
Theorem ledger_never_negative calls w :
  nonNegative (db w) → nonNegative (db (startBuilds calls w)).
Proof.
  revert w. induction calls as [|dto calls IH]; intros w Hn; simpl; [done|].
  apply IH. by apply startBuild_nonNegative.
Qed.

(** ** completeBuild *)

(** What a call of [completeBuild] can do, under any schedule of the store. *)
Lemma completeBuild_outcome i st w :
  match completeBuild i st w with
  | (Ok b', w') =>
      ∃ b t,
        builds (db w) !! i = Some b ∧ status b = RUNNING ∧
        clock w ≤ t ≤ clock w' ∧
        b' = completed b t st ∧
        db w' = mkDB (users (db w)) (<[id b := b']> (builds (db w)))
  | (Throw e, w') => db w' = db w
  end.
Proof.
  unfold completeBuild. unfold_svc.
  store_step; [|done].
  destruct (builds (db w) !! i) as [b|] eqn:Hb; [|done].
  destruct (decide (status b = RUNNING)) as [Hs|Hs]; [|done].
  store_step; [|done].
  exists b, c. repeat split; try done; simpl; lia.
Qed.

(** The same with a store that raises no error: the outcome is decided by the
    record alone. *)
Lemma completeBuild_quiet i st w :
  quiet w →
  ∃ r w',
    completeBuild i st w = (r, w') ∧ quiet w' ∧ clock w ≤ clock w' ∧
    match builds (db w) !! i with
    | None =>
        r = Throw (NotFoundException ("Build " ++ i ++ " not found")) ∧
        db w' = db w
    | Some b =>
        if decide (status b = RUNNING)
        then ∃ t, clock w ≤ t ≤ clock w' ∧
                  r = Ok (completed b t st) ∧
                  db w' = mkDB (users (db w))
                               (<[id b := completed b t st]> (builds (db w)))
        else r = Throw (notRunning i) ∧ db w' = db w
    end.
Proof.
  intros Hq. unfold quiet in Hq. unfold completeBuild. unfold_svc.
  quiet_step.
  destruct (builds (db w) !! i) as [b|] eqn:Hb.
  - destruct (decide (status b = RUNNING)) as [Hst|Hst].
    + quiet_step. do 2 eexists. split; [done|]. unfold quiet; simpl.
      repeat split; [done|lia|]. exists c. repeat split; try done; lia.
    + do 2 eexists. split; [done|]. unfold quiet; simpl. by repeat split.
  - do 2 eexists. split; [done|]. unfold quiet; simpl. by repeat split.
Qed.

(** The status guard, under any schedule: a record that is not Running is
    never written, and no record is returned for it. *)
Lemma completeBuild_guard i st w b :
  builds (db w) !! i = Some b → status b ≠ RUNNING →
  ∃ e w', completeBuild i st w = (Throw e, w') ∧ db w' = db w ∧
          (e = notRunning i ∨ ∃ m, e = QueryFailedError m).
Proof.
  intros Hb Hs. unfold completeBuild. unfold_svc.
  store_step; [|by eauto 10].
  rewrite Hb. destruct (decide (status b = RUNNING)); [done|].
  do 2 eexists. by eauto.
Qed.

Lemma completeBuild_absent i st w :
  builds (db w) !! i = None →
  ∃ e w', completeBuild i st w = (Throw e, w') ∧ db w' = db w.
Proof.
  intros Hb. unfold completeBuild. unfold_svc.
  store_step; [|by eauto]. rewrite Hb. by eauto.
Qed.

(** A call that throws anything but a store error found no record, or one
    that is not Running. *)
Lemma completeBuild_throw_inv i st w e w' :
  completeBuild i st w = (Throw e, w') →
  (∃ m, e = QueryFailedError m) ∨
  (db w' = db w ∧
   (builds (db w) !! i = None ∨
    ∃ b, builds (db w) !! i = Some b ∧ status b ≠ RUNNING)).
Proof.
  unfold completeBuild. unfold_svc.
  store_step; [|intros [= <- <-]; eauto].
  destruct (builds (db w) !! i) as [b|] eqn:Hb.
  - destruct (decide (status b = RUNNING)) as [Hst|Hst].
    + store_step; [done|]. intros [= <- <-]; eauto.
    + intros [= <- <-]. right. split; [done|]. eauto.
  - intros [= <- <-]. right. split; [done|]. eauto.
Qed.

(** [completeBuild] keeps rows under their own keys. *)
Lemma completeBuild_keyed i st w :
  keyed (db w) → keyed (db (completeBuild i st w).2).
Proof.
  intros [Hu Hb]. pose proof (completeBuild_outcome i st w) as H.
  destruct (completeBuild i st w) as [[b'|e] w']; simpl.
  - destruct H as (b & t & _ & _ & _ & -> & ->). split; simpl; [done|].
    by apply map_Forall_insert_2.
  - rewrite H. by split.
Qed.

(** C4.  The status guard makes completion idempotent.
    (1) If the record loaded for [buildId] is not Running, [completeBuild]
    throws -- 'Build .. is not running' unless the load itself failed -- and
    writes nothing.
    (2) After a first call with a terminal status that was not cut short by a
    store error, a second call on the same id, with any status and at any
    later time, leaves the tables as the first call left them: the record,
    with its duration and endTime, is the same in both observations, and when
    the first call completed the record the second throws and returns
    nothing. *)
Theorem completeBuild_idempotent i w :
  keyed (db w) →
  (∀ st b, builds (db w) !! i = Some b → status b ≠ RUNNING →
     ∃ e w', completeBuild i st w = (Throw e, w') ∧ db w' = db w ∧
             (e = notRunning i ∨ ∃ m, e = QueryFailedError m) ∧
             (quiet w → e = notRunning i)) ∧
  (∀ st1 st2 r1 w1 r2 w2,
     st1 ≠ RUNNING →
     completeBuild i st1 w = (r1, w1) →
     (∀ m, r1 ≠ Throw (QueryFailedError m)) →
     completeBuild i st2 w1 = (r2, w2) →
     db w2 = db w1 ∧
     builds (db w2) !! i = builds (db w1) !! i ∧
     (∃ e, r2 = Throw e) ∧
     (∀ b1, r1 = Ok b1 →
        builds (db w2) !! i = Some b1 ∧
        (r2 = Throw (notRunning i) ∨ ∃ m, r2 = Throw (QueryFailedError m)))).
Proof.
  intros [Hu Hk]. split.
  - intros st b Hb Hs.
    destruct (completeBuild_guard i st w b Hb Hs) as (e & w' & E & Hdb & He).
    exists e, w'. repeat split; try done. intros Hq.
    destruct (completeBuild_quiet i st w Hq) as (r & w'' & E' & _ & _ & Hm).
    rewrite Hb in Hm. destruct (decide (status b = RUNNING)); [done|].
    destruct Hm as [-> _]. congruence.
  - intros st1 st2 r1 w1 r2 w2 Hst E1 Hr1 E2.
    pose proof (completeBuild_outcome i st1 w) as H1. rewrite E1 in H1.
    destruct r1 as [b1|e1].
    + destruct H1 as (b & t & Hb & Hs & _ & -> & Hdb).
      assert (builds (db w1) !! i = Some (completed b t st1)) as Hb1.
      { rewrite Hdb; simpl. rewrite (Hk _ _ Hb). apply lookup_insert_eq. }
      destruct (completeBuild_guard i st2 w1 _ Hb1 Hst)
        as (e & w' & E & Hdb' & He).
      rewrite E2 in E. injection E as -> ->. rewrite Hdb'.
      repeat split; eauto.
      * congruence.
      * destruct He as [->|[m ->]]; eauto.
    + destruct (completeBuild_throw_inv i st1 w e1 w1 E1) as [[m ->]|[Hdb1 Hrec]];
        [by destruct (Hr1 m)|].
      assert (∃ e w', completeBuild i st2 w1 = (Throw e, w') ∧ db w' = db w1)
        as (e & w' & E & Hdb').
      { destruct Hrec as [Hn|(b & Hb & Hs)].
        - apply completeBuild_absent. by rewrite Hdb1.
        - rewrite <- Hdb1 in Hb.
          destruct (completeBuild_guard i st2 w1 b Hb Hs) as (e & w' & ? & ? & _).
          eauto. }
      rewrite E2 in E. injection E as -> ->. rewrite Hdb'.
      repeat split; eauto; done.
Qed.

(** C5 (as amended).  For a record in status Running and a store that raises
    no error, [completeBuild(id, status)] reads the clock once ([now]), sets
    endTime = now and duration = now - startTime, the elapsed time, whatever
    duration was requested at the start; sets status to the status argument
    (Completed by default, Failed when the caller passes Failed); leaves
    errorMessage and every other column as they were; sets
    isValid = (duration > 0), a fixed check; and persists the updated record
    under the same id, touching no other record and no balance. *)
Theorem completeBuild_running i st w b :
  keyed (db w) → quiet w →
  builds (db w) !! i = Some b → status b = RUNNING →
  ∃ b' w' now,
    completeBuild i st w = (Ok b', w') ∧
    clock w ≤ now ≤ clock w' ∧
    endTime b' = Some now ∧
    duration b' = Some (now - startTime b) ∧
    status b' = st ∧
    errorMessage b' = errorMessage b ∧
    isValid b' = bool_decide (0 < now - startTime b) ∧
    b' = completed b now st ∧
    builds (db w') !! i = Some b' ∧
    (∀ j, j ≠ i → builds (db w') !! j = builds (db w) !! j) ∧
    users (db w') = users (db w).
Proof.
  intros [_ Hk] Hq Hb Hs.
  destruct (completeBuild_quiet i st w Hq) as (r & w' & E & _ & _ & Hm).
  rewrite Hb in Hm. destruct (decide (status b = RUNNING)); [|done].
  destruct Hm as (now & Hnow & -> & Hdb).
  exists (completed b now st), w', now. rewrite Hdb; simpl.
  rewrite (Hk _ _ Hb).
  repeat split; try done; try lia.
  - unfold validateDuration.
    destruct (Z.ltb_spec 0 (now - startTime b)).
    + by rewrite bool_decide_eq_true_2.
    + rewrite bool_decide_eq_false_2; [done|lia].
  - apply lookup_insert_eq.
  - intros j Hj. by apply lookup_insert_ne.
Qed.

(** ** The due query *)

Lemma elem_of_rows d b : b ∈ rows d ↔ ∃ i, builds d !! i = Some b.
Proof.
  unfold rows. rewrite list_elem_of_fmap. split.
  - intros ([i b'] & -> & H). apply elem_of_map_to_list in H. eauto.
  - intros [i H]. exists (i, b). split; [done|]. by apply elem_of_map_to_list.
Qed.

Lemma elem_of_findDue now d b :
  b ∈ findDue now d ↔
  (∃ i, builds d !! i = Some b) ∧ status b = RUNNING ∧ executeAt b ≤ now.
Proof.
  unfold findDue. rewrite merge_sort_Permutation, list_elem_of_filter, elem_of_rows.
  unfold isDue. tauto.
Qed.

(** C6.  The due query returns exactly the records with status Running and
    executeAt <= now, where now is the clock when the query is issued, each
    as often as it is stored, in ascending order of executeAt, and changes
    nothing.  In particular a Running record whose executeAt has passed is
    returned, a Running record whose executeAt lies ahead is not, and a
    Completed record is not, however old its executeAt. *)
Theorem getBuildsToComplete_due w l w' :
  getBuildsToComplete w = (Ok l, w') →
  (∀ b, b ∈ l ↔
        (∃ i, builds (db w) !! i = Some b) ∧
        status b = RUNNING ∧ executeAt b ≤ clock w) ∧
  l ≡ₚ filter (isDue (clock w)) (rows (db w)) ∧
  StronglySorted byExecuteAt l ∧
  db w' = db w ∧
  (∀ i b, builds (db w) !! i = Some b →
     (status b = RUNNING → executeAt b < clock w → b ∈ l) ∧
     (status b = RUNNING → clock w < executeAt b → b ∉ l) ∧
     (status b = COMPLETED → b ∉ l)).
Proof.
  unfold getBuildsToComplete. unfold_svc.
  store_step; [|done]. intros [= <- <-]. simpl.
  split; [intros b; apply elem_of_findDue|].
  split; [apply merge_sort_Permutation|].
  split; [apply StronglySorted_merge_sort; apply _|].
  split; [done|].
  intros i b Hb. rewrite !elem_of_findDue. split; [|split].
  - intros Hs Ht. repeat split; eauto. lia.
  - intros Hs Ht (_ & _ & ?). lia.
  - intros Hs (_ & ? & _). congruence.
Qed.

(** With a store that raises no error the due query answers. *)
Lemma getBuildsToComplete_quiet w :
  quiet w →
  ∃ w', getBuildsToComplete w = (Ok (findDue (clock w) (db w)), w') ∧
        db w' = db w ∧ quiet w' ∧ clock w ≤ clock w'.
Proof.
  intros Hq. unfold quiet in Hq. unfold getBuildsToComplete. unfold_svc.
  quiet_step. eexists. split; [done|]. by repeat split.
Qed.

(** ** Batches with a store that raises no error *)

Lemma swept_nil w : quiet w → swept [] w w.
Proof.
  intros Hq. repeat split; try done. intros b Hb. by apply elem_of_nil in Hb.
Qed.

(** Completing the head of a pending batch succeeds and leaves the tail
    pending. *)
Lemma complete_head b l w :
  quiet w → pending (b :: l) w →
  ∃ t w1,
    completeBuild (id b) COMPLETED w = (Ok (completed b t COMPLETED), w1) ∧
    quiet w1 ∧ pending l w1 ∧
    ∀ w', swept l w1 w' → swept (b :: l) w w'.
Proof.
  intros Hq [Hnd Hl]. apply NoDup_cons in Hnd as [Hb_l Hnd].
  destruct (Hl b) as [Hb Hs]; [by left|].
  destruct (completeBuild_quiet (id b) COMPLETED w Hq)
    as (r & w1 & E & Hq1 & Hc1 & Hm).
  rewrite Hb in Hm. destruct (decide (status b = RUNNING)); [|done].
  destruct Hm as (t & Ht & -> & Hdb1).
  exists t, w1. split; [done|]. split; [done|]. split.
  - split; [done|]. intros b' Hb'. destruct (Hl b') as [Hb'' Hs']; [by right|].
    split; [|done]. rewrite Hdb1; simpl. rewrite lookup_insert_ne; [done|].
    intros Heq. apply Hb_l. rewrite Heq. apply list_elem_of_fmap. eauto.
  - intros w' (Hq' & Hc' & Hu' & Hout & Hin).
    split; [done|]. split; [lia|]. split; [by rewrite Hu', Hdb1|]. split.
    + intros i Hi. apply not_elem_of_cons in Hi as [Hib Hil].
      rewrite (Hout i Hil), Hdb1; simpl. by apply lookup_insert_ne.
    + intros b' Hb'. apply elem_of_cons in Hb' as [->|Hb'].
      * exists t. split; [lia|]. rewrite (Hout _ Hb_l), Hdb1; simpl.
        apply lookup_insert_eq.
      * destruct (Hin b' Hb') as (t' & Ht' & Hb''). exists t'. split; [lia|done].
Qed.

Lemma recoverEach_quiet l : ∀ n w,
  quiet w → pending l w →
  ∃ w', recoverEach l n w = (Ok (n + length l)%nat, w') ∧ swept l w w'.
Proof.
  induction l as [|b l IH]; intros n w Hq Hp.
  - exists w. simpl. unfold ret. rewrite Nat.add_0_r. split; [done|].
    by apply swept_nil.
  - destruct (complete_head b l w Hq Hp) as (t & w1 & E & Hq1 & Hp1 & Hsw).
    destruct (IH (S n) w1 Hq1 Hp1) as (w' & E' & Hsw').
    exists w'. simpl. unfold try_catch, bind, ret. rewrite E, E'.
    split; [f_equal; f_equal; lia|]. by apply Hsw.
Qed.

Lemma processEach_quiet l : ∀ w,
  quiet w → pending l w →
  ∃ w', processEach l w = (Ok tt, w') ∧ swept l w w'.
Proof.
  induction l as [|b l IH]; intros w Hq Hp.
  - exists w. split; [done|]. by apply swept_nil.
  - destruct (complete_head b l w Hq Hp) as (t & w1 & E & Hq1 & Hp1 & Hsw).
    destruct (IH w1 Hq1 Hp1) as (w' & E' & Hsw').
    exists w'. simpl. unfold try_catch, bind, ret. rewrite E, E'.
    split; [done|]. by apply Hsw.
Qed.

Lemma NoDup_ids_findDue now d :
  keyed d → NoDup (id <$> findDue now d).
Proof.
  intros [_ Hk]. unfold findDue. rewrite merge_sort_Permutation.
  apply (sublist_NoDup _ (id <$> rows d)); [|apply fmap_sublist, sublist_filter].
  unfold rows. rewrite <- list_fmap_compose.
  rewrite (list_fmap_ext (id ∘ snd) fst); [apply NoDup_fst_map_to_list|].
  intros n [k b] Hn. simpl. apply (Hk k b).
  apply elem_of_map_to_list, list_elem_of_lookup. eauto.
Qed.

Lemma findDue_stored now d b :
  keyed d → b ∈ findDue now d → d.(builds) !! id b = Some b ∧ isDue now b.
Proof.
  intros [_ Hk] ([i Hb] & Hs & Ht)%elem_of_findDue.
  rewrite (Hk _ _ Hb). by repeat split.
Qed.

(** The answer of the due query is a pending batch. *)
Lemma findDue_pending w w1 :
  keyed (db w) → db w1 = db w → pending (findDue (clock w) (db w)) w1.
Proof.
  intros Hk Hdb. split; [by apply NoDup_ids_findDue|].
  intros b Hb. rewrite Hdb.
  destruct (findDue_stored _ _ _ Hk Hb) as [? [? _]]. done.
Qed.

(** What sweeping the answer of the due query means record by record. *)
Lemma swept_due w w1 w' :
  keyed (db w) → db w1 = db w → clock w ≤ clock w1 →
  swept (findDue (clock w) (db w)) w1 w' →
  allDueCompleted w w'.
Proof.
  intros Hk Hdb1 Hc1 (_ & _ & Hu' & Hout & Hin).
  pose proof (findDue_stored (clock w) (db w)) as Hdue.
  assert (∀ i, i ∈ id <$> findDue (clock w) (db w) →
               ∃ b, builds (db w) !! i = Some b ∧ isDue (clock w) b) as Hids.
  { intros i (b & -> & Hb)%list_elem_of_fmap.
    destruct (Hdue b Hk Hb). eauto. }
  split; [by rewrite Hu', Hdb1|]. split.
  - intros i Hi. rewrite Hout, Hdb1; [done|].
    intros (b & Hb & _)%Hids. congruence.
  - intros i b Hb. destruct (decide (isDue (clock w) b)) as [Hd|Hd].
    + assert (b ∈ findDue (clock w) (db w)) as Hbl.
      { apply elem_of_findDue. destruct Hd. eauto. }
      destruct (Hin b Hbl) as (t & Ht & Hb').
      assert (id b = i) as <-. { destruct Hk as [_ Hk]. by apply (Hk i b). }
      exists t. split; [lia|done].
    + rewrite Hout, Hdb1; [done|].
      intros (b' & Hb' & Hd')%Hids. congruence.
Qed.

(** With well-keyed tables and a store that raises no error, the recovery
    sweep completes every due record, with the elapsed time as duration,
    leaves all other records and the ledger alone, and returns the number of
    due records. *)
Lemma recoverCompletedBuilds_quiet w :
  keyed (db w) → quiet w →
  ∃ w',
    recoverCompletedBuilds w =
      (Ok (length (filter (isDue (clock w)) (rows (db w)))), w') ∧
    allDueCompleted w w'.
Proof.
  intros Hk Hq.
  destruct (getBuildsToComplete_quiet w Hq) as (w1 & E1 & Hdb1 & Hq1 & Hc1).
  destruct (recoverEach_quiet (findDue (clock w) (db w)) 0%nat w1 Hq1)
    as (w' & E' & Hsw); [by apply findDue_pending|].
  exists w'. unfold recoverCompletedBuilds, bind. rewrite E1, E'.
  split; [|by apply (swept_due w w1)].
  simpl. unfold findDue. by rewrite merge_sort_Permutation.
Qed.

(** Under the same conditions an idle scheduler does the same in a tick, and
    is idle again afterwards. *)
Lemma processCompletedBuilds_quiet w :
  keyed (db w) → quiet w → isProcessing w = false →
  ∃ w',
    processCompletedBuilds w = (Ok tt, w') ∧
    isProcessing w' = false ∧
    allDueCompleted w w'.
Proof.
  intros Hk Hq Hidle.
  pose (w0 := set_isProcessing true w).
  destruct (getBuildsToComplete_quiet w0 Hq) as (w1 & E1 & Hdb1 & Hq1 & Hc1).
  destruct (processEach_quiet (findDue (clock w) (db w)) w1 Hq1)
    as (w' & E' & Hsw); [by apply (findDue_pending w)|].
  exists (set_isProcessing false w').
  unfold processCompletedBuilds, finally, try_catch, bind, get, modify, ret.
  rewrite Hidle. fold w0. rewrite E1. simpl.
  replace (if (0 <? length (findDue (clock w) (db w)))%nat
           then processEach (findDue (clock w) (db w)) else fun w2 => (Ok (), w2))
    with (processEach (findDue (clock w) (db w)))
    by (by destruct (findDue (clock w) (db w))).
  rewrite E'. split; [done|]. split; [done|].
  by apply (swept_due w w1).
Qed.

(** A tick that finds the previous one still running does nothing. *)
Lemma processCompletedBuilds_busy w :
  isProcessing w = true → processCompletedBuilds w = (Ok tt, w).
Proof.
  intros Hbusy. unfold processCompletedBuilds, bind, get, ret. by rewrite Hbusy.
Qed.

(** * The claims on concrete runs *)

Lemma ex_fresh_keyed n : keyed (db (ex_fresh n)).
Proof.
  split; simpl.
  - unfold ex_ledger. by apply map_Forall_singleton.
  - apply map_Forall_empty.
Qed.

Lemma ex_world_keyed sch : keyed (db (ex_world sch)).
Proof.
  split; simpl.
  - unfold ex_ledger. by apply map_Forall_singleton.
  - unfold ex_registry. repeat (apply map_Forall_insert_2; [done|]).
    apply map_Forall_empty.
Qed.

Lemma startBuild_all_or_nothing_witness :
  (∃ b w' ur,
      startBuild (ex_dto "barracks" 1000 10) (ex_fresh 10) = (Ok b, w') ∧
      users (db (ex_fresh 10)) !! "u1" = Some ur ∧
      builds (db (ex_fresh 10)) !! id b = None ∧
      db w' = mkDB (<["u1" := deduct ur (ex_dto "barracks" 1000 10)]>
                      (users (db (ex_fresh 10))))
                   (<[id b := b]> (builds (db (ex_fresh 10)))))
  ∨ (∃ e w', startBuild (ex_dto "barracks" 1000 10) (ex_fresh 10) = (Throw e, w')
             ∧ db w' = db (ex_fresh 10)).
Proof.
  exact (startBuild_all_or_nothing (ex_dto "barracks" 1000 10) (ex_fresh 10)
           (ex_fresh_keyed 10)).
Defined.



(** The spec's double-spend run: 100 wood and two requests of 60 each. *)
Lemma ledger_never_negative_witness :
  nonNegative (db (startBuilds [ex_dto "wall" 500 60; ex_dto "wall" 500 60]
                     (ex_fresh 100))).
Proof.
  apply (ledger_never_negative [ex_dto "wall" 500 60; ex_dto "wall" 500 60]
           (ex_fresh 100)).
  unfold nonNegative, ex_fresh, ex_ledger; simpl.
  apply map_Forall_singleton. simpl. lia.
Defined.

Lemma completeBuild_idempotent_witness :
  ∃ b1 w1 w2,
    completeBuild "a" COMPLETED (ex_world []) = (Ok b1, w1) ∧
    completeBuild "a" FAILED w1 = (Throw (notRunning "a"), w2) ∧
    db w2 = db w1 ∧
    builds (db w2) !! "a" = Some b1 ∧
    endTime b1 = Some 1000 ∧ duration b1 = Some 1000.
Proof.
  destruct (completeBuild_idempotent "a" (ex_world []) (ex_world_keyed []))
    as [_ H].
  destruct (completeBuild "a" COMPLETED (ex_world [])) as [r1 w1] eqn:E1.
  assert (r1 = Ok (completed (ex_build "a" 300 RUNNING) 1000 COMPLETED)) as Hr1.
  { vm_compute in E1. by injection E1 as <- _. }
  destruct (completeBuild "a" FAILED w1) as [r2 w2] eqn:E2.
  assert (r2 = Throw (notRunning "a")) as Hr2.
  { vm_compute in E1. injection E1 as _ <-. vm_compute in E2.
    by injection E2 as <- _. }
  destruct (H COMPLETED FAILED r1 w1 r2 w2) as (Hdb & _ & _ & Hb1).
  - discriminate.
  - exact E1.
  - rewrite Hr1. discriminate.
  - exact E2.
  - destruct (Hb1 _ Hr1) as [Hb _].
    exists (completed (ex_build "a" 300 RUNNING) 1000 COMPLETED), w1, w2.
    rewrite <- Hr1, <- Hr2. repeat split; done.
Defined.

Lemma completeBuild_running_witness :
  ∃ b' w' now,
    completeBuild "a" FAILED (ex_world [mkStep 7 None]) = (Ok b', w') ∧
    1000 ≤ now ∧
    endTime b' = Some now ∧ duration b' = Some (now - 0) ∧
    status b' = FAILED ∧ errorMessage b' = None ∧
    isValid b' = bool_decide (0 < now - 0) ∧
    builds (db w') !! "a" = Some b'.
Proof.
  destruct (completeBuild_running "a" FAILED (ex_world [mkStep 7 None])
              (ex_build "a" 300 RUNNING) (ex_world_keyed _))
    as (b' & w' & now & E & [Hn _] & He & Hd & Hs & Hm & Hv & _ & Hb & _).
  - repeat constructor.
  - vm_compute. reflexivity.
  - reflexivity.
  - exists b', w', now. repeat split; assumption.
Defined.

(** C5, counterexample.  Completing a Running record as Failed records no
    reason: [completeBuild] takes a status, not a failure reason, and the
    stored record has status Failed and no errorMessage. *)
Lemma completeBuild_failed_without_message :
  ∃ b' w',
    completeBuild "a" FAILED (ex_world []) = (Ok b', w') ∧
    builds (db w') !! "a" = Some b' ∧
    status b' = FAILED ∧
    errorMessage b' = None.
Proof.
  do 2 eexists. split; [vm_compute; reflexivity|].
  repeat split; vm_compute; reflexivity.
Qed.

Lemma getBuildsToComplete_due_witness :
  ∃ w',
    getBuildsToComplete (ex_world [])
      = (Ok [ex_build "a" 300 RUNNING; ex_build "b" 500 RUNNING], w') ∧
    StronglySorted byExecuteAt
      [ex_build "a" 300 RUNNING; ex_build "b" 500 RUNNING] ∧
    (ex_build "c" 1300 RUNNING
       ∉ [ex_build "a" 300 RUNNING; ex_build "b" 500 RUNNING]) ∧
    (ex_build "d" 100 COMPLETED
       ∉ [ex_build "a" 300 RUNNING; ex_build "b" 500 RUNNING]).
Proof.
  assert (getBuildsToComplete (ex_world [])
          = (Ok [ex_build "a" 300 RUNNING; ex_build "b" 500 RUNNING],
             ex_world [])) as E.
  { vm_compute. reflexivity. }
  destruct (getBuildsToComplete_due _ _ _ E) as (_ & _ & Hs & _ & Hex).
  exists (ex_world []). split; [exact E|]. split; [exact Hs|]. split.
  - destruct (Hex "c" (ex_build "c" 1300 RUNNING)) as (_ & Hc & _).
    + vm_compute. reflexivity.
    + apply Hc; [reflexivity|simpl; lia].
  - destruct (Hex "d" (ex_build "d" 100 COMPLETED)) as (_ & _ & Hd).
    + vm_compute. reflexivity.
    + apply Hd. reflexivity.
Defined.

(** C7, the code at a failing input.  A tick finds "a" and "b" due.  The
    store fails while "a" is saved, and is still failing when the handler
    calls [completeBuild] again to mark "a" Failed.  That second exception
    leaves the loop: the tick ends normally, "a" is not marked, and "b", the
    next record of the batch, is never visited although the store answers
    again by then.  When the store fails only once, the handler does mark "a"
    Failed, but with no error message.  The loop is cut short with a healthy
    store too, when "a" has been completed by someone else after the batch
    was read: both calls for "a" throw 'not running' and "b" is left out. *)
Theorem processCompletedBuilds_batch_cut_short :
  ex_build "b" 500 RUNNING ∈ findDue 1000 (db (ex_world ex_outage)) ∧
  (processCompletedBuilds (ex_world ex_outage)).1 = Ok tt ∧
  sched (processCompletedBuilds (ex_world ex_outage)).2 = [] ∧
  builds (db (processCompletedBuilds (ex_world ex_outage)).2) !! "a"
    = Some (ex_build "a" 300 RUNNING) ∧
  builds (db (processCompletedBuilds (ex_world ex_outage)).2) !! "b"
    = Some (ex_build "b" 500 RUNNING) ∧
  (∃ a', builds (db (processCompletedBuilds (ex_world ex_hiccup)).2) !! "a"
           = Some a' ∧
         status a' = FAILED ∧ errorMessage a' = None) ∧
  (processEach [ex_build "a" 300 RUNNING; ex_build "b" 500 RUNNING]
     (completeBuild "a" COMPLETED (ex_world [])).2).1
    = Throw (notRunning "a") ∧
  builds (db (processEach [ex_build "a" 300 RUNNING; ex_build "b" 500 RUNNING]
                (completeBuild "a" COMPLETED (ex_world [])).2).2) !! "b"
    = Some (ex_build "b" 500 RUNNING).
Proof.
  split; [vm_compute; repeat constructor|].
  do 4 (split; [vm_compute; reflexivity|]).
  split; [|split; vm_compute; reflexivity].
  eexists. repeat split; vm_compute; reflexivity.
Qed.

(** C8, the code at a failing input.  The sweep finds "a" and "b" due.  The
    store fails while "a" is saved, and is still failing when the handler
    saves "a" as Failed.  That second exception leaves the loop and the
    sweep: no count is returned, "a" is not marked, and "b" is never visited
    although the store answers again by then. *)
Theorem recoverCompletedBuilds_sweep_aborted :
  ex_build "b" 500 RUNNING ∈ findDue 1000 (db (ex_world ex_outage)) ∧
  (recoverCompletedBuilds (ex_world ex_outage)).1
    = Throw (QueryFailedError "SQLITE_BUSY") ∧
  sched (recoverCompletedBuilds (ex_world ex_outage)).2 = [] ∧
  builds (db (recoverCompletedBuilds (ex_world ex_outage)).2) !! "a"
    = Some (ex_build "a" 300 RUNNING) ∧
  builds (db (recoverCompletedBuilds (ex_world ex_outage)).2) !! "b"
    = Some (ex_build "b" 500 RUNNING).
Proof.
  split; [vm_compute; repeat constructor|].
  repeat split; vm_compute; reflexivity.
Qed.

(** When the store fails only once, the sweep does what it is meant to do:
    "a" is marked Failed with the message of the error, "b" is completed and
    counted. *)
Lemma recoverCompletedBuilds_one_fault :
  (recoverCompletedBuilds (ex_world ex_hiccup)).1 = Ok 1%nat ∧
  builds (db (recoverCompletedBuilds (ex_world ex_hiccup)).2) !! "a"
    = Some (markFailed (ex_build "a" 300 RUNNING) (QueryFailedError "SQLITE_BUSY")) ∧
  builds (db (recoverCompletedBuilds (ex_world ex_hiccup)).2) !! "b"
    = Some (completed (ex_build "b" 500 RUNNING) 1003 COMPLETED).
Proof. repeat split; vm_compute; reflexivity. Qed.

(** * Further properties of the service *)

(** ** Overwriting records *)

Lemma sameCore_refl b : sameCore b b.
Proof. by repeat split. Qed.

Lemma sameCore_trans a b c : sameCore a b → sameCore b c → sameCore a c.
Proof. unfold sameCore. intuition congruence. Qed.

Lemma sameCore_completed b t st : sameCore b (completed b t st).
Proof. by repeat split. Qed.

Lemma sameCore_markFailed b e : sameCore b (markFailed b e).
Proof. by repeat split. Qed.

Lemma rewritten_trans ids d1 d2 d3 :
  rewritten ids d1 d2 → rewritten ids d2 d3 → rewritten ids d1 d3.
Proof.
  induction 1 as [|d i b0 b' d' Hi Hb Hr Hc _ IH]; [done|].
  intros H3. eapply rewritten_step; eauto.
Qed.

Lemma rewritten_mono ids ids' d d' :
  (∀ i, i ∈ ids → i ∈ ids') → rewritten ids d d' → rewritten ids' d d'.
Proof.
  intros Hsub. induction 1 as [|d i b0 b' d' Hi Hb Hr Hc _ IH];
    [constructor|]. eapply rewritten_step; eauto.
Qed.

Lemma rewritten_one ids d i b0 b' :
  i ∈ ids → builds d !! i = Some b0 → status b0 = RUNNING → sameCore b0 b' →
  rewritten ids d (mkDB (users d) (<[i := b']> (builds d))).
Proof. intros. eapply rewritten_step; eauto. constructor. Qed.

(** What overwriting cannot do. *)
Lemma rewritten_facts ids d d' :
  rewritten ids d d' →
  users d' = users d ∧
  (∀ i, i ∉ ids → builds d' !! i = builds d !! i) ∧
  (∀ i, builds d !! i = None → builds d' !! i = None) ∧
  (∀ i b, builds d !! i = Some b →
          ∃ b', builds d' !! i = Some b' ∧ sameCore b b') ∧
  (∀ i b, builds d !! i = Some b → status b ≠ RUNNING →
          builds d' !! i = Some b).
Proof.
  induction 1
    as [d|d i b0 b' d' Hi Hb Hr Hc _ (IHu & IHout & IHn & IHs & IHt)].
  - repeat split; try done. intros i b Hb. exists b. split; [done|].
    apply sameCore_refl.
  - simpl in *. split; [done|]. split; [|split; [|split]].
    4:{ intros j b Hj Hs. apply IHt; [|done].
        rewrite lookup_insert_ne; [done|]. congruence. }
    + intros j Hj. rewrite (IHout j Hj). apply lookup_insert_ne. congruence.
    + intros j Hj. apply IHn. rewrite lookup_insert_ne; [done|]. congruence.
    + intros j b Hj. destruct (decide (i = j)) as [->|Hne].
      * destruct (IHs j b') as (b'' & Hb'' & Hc''); [apply lookup_insert_eq|].
        exists b''. split; [done|]. eapply sameCore_trans; [|done].
        congruence.
      * apply IHs. by rewrite lookup_insert_ne.
Qed.

Lemma rewritten_keyed ids d d' : rewritten ids d d' → keyed d → keyed d'.
Proof.
  intros H [Hu Hk].
  destruct (rewritten_facts _ _ _ H) as (Hu' & _ & Hn & Hs & _).
  split; [by rewrite Hu'|]. intros i b' Hb'.
  destruct (builds d !! i) as [b|] eqn:Hb.
  - destruct (Hs i b Hb) as (b'' & Hb'' & Hc). rewrite Hb' in Hb''.
    injection Hb'' as <-. destruct Hc as [<- _]. by apply (Hk i b).
  - rewrite (Hn i Hb) in Hb'. done.
Qed.

Lemma sameCore_sym a b : sameCore a b → sameCore b a.
Proof. unfold sameCore. intuition congruence. Qed.

(** ** Operations under any behaviour of the store *)

Lemma completeBuild_rewritten i st w :
  keyed (db w) → rewritten [i] (db w) (db (completeBuild i st w).2).
Proof.
  intros [_ Hk]. pose proof (completeBuild_outcome i st w) as H.
  destruct (completeBuild i st w) as [[b'|e] w']; simpl.
  - destruct H as (b & t & Hb & Hr & _ & -> & ->). rewrite (Hk _ _ Hb).
    apply (rewritten_one _ _ _ b); [by left|done..|apply sameCore_completed].
  - rewrite H. constructor.
Qed.

Lemma save_outcome b w :
  match BuildRepository.save b w with
  | (Ok b', w') =>
      b' = b ∧ db w' = mkDB (users (db w)) (<[id b := b]> (builds (db w)))
  | (Throw e, w') => db w' = db w
  end.
Proof. unfold_svc. by store_step. Qed.

Lemma getBuildsToComplete_inv w :
  match getBuildsToComplete w with
  | (Ok l, w') => l = findDue (clock w) (db w) ∧ db w' = db w
  | (Throw e, w') => db w' = db w
  end.
Proof. unfold getBuildsToComplete. unfold_svc. by store_step. Qed.

(** One turn of the loop of the sweep. *)
Lemma recover_turn b n w :
  keyed (db w) → pending [b] w →
  rewritten [id b] (db w)
    (db (try_catch
           (bind (completeBuild (id b) COMPLETED) (fun _ => ret (S n)))
           (fun error =>
              bind (BuildRepository.save (markFailed b error))
                   (fun _ => ret n)) w).2).
Proof.
  intros Hk [_ Hst]. unfold try_catch, bind, ret.
  pose proof (completeBuild_rewritten (id b) COMPLETED w Hk) as Hc.
  pose proof (completeBuild_outcome (id b) COMPLETED w) as Ho.
  destruct (completeBuild (id b) COMPLETED w) as [[b'|e] w1]; [done|].
  simpl in Hc. pose proof (save_outcome (markFailed b e) w1) as Hs.
  destruct (BuildRepository.save (markFailed b e) w1) as [[b'|e'] w2]; simpl.
  - destruct Hs as [_ ->]. rewrite Ho.
    destruct (Hst b) as [Hb0 Hr]; [by left|].
    apply (rewritten_one _ _ _ b); [by left|done..|].
    apply sameCore_markFailed.
  - rewrite Hs, Ho. constructor.
Qed.

(** One turn of the loop of the tick. *)
Lemma process_turn b w :
  keyed (db w) →
  rewritten [id b] (db w)
    (db (try_catch
           (bind (completeBuild (id b) COMPLETED) (fun _ => ret tt))
           (fun error =>
              bind (completeBuild (id b) FAILED) (fun _ => ret tt)) w).2).
Proof.
  intros Hk. unfold try_catch, bind, ret.
  pose proof (completeBuild_rewritten (id b) COMPLETED w Hk) as Hc.
  pose proof (completeBuild_outcome (id b) COMPLETED w) as Ho.
  destruct (completeBuild (id b) COMPLETED w) as [[b'|e] w1]; [done|].
  simpl in Hc. assert (keyed (db w1)) as Hk1 by (by rewrite Ho).
  pose proof (completeBuild_rewritten (id b) FAILED w1 Hk1) as Hc'.
  rewrite Ho in Hc'.
  by destruct (completeBuild (id b) FAILED w1) as [[b'|e'] w2].
Qed.

Lemma rewritten_head i ids d d' :
  rewritten [i] d d' → rewritten (i :: ids) d d'.
Proof.
  apply rewritten_mono. intros j Hj. apply list_elem_of_singleton in Hj as ->.
  by left.
Qed.

Lemma rewritten_tail i ids d d' :
  rewritten ids d d' → rewritten (i :: ids) d d'.
Proof. apply rewritten_mono. intros j Hj. by right. Qed.

Lemma pending_head b l w : pending (b :: l) w → pending [b] w.
Proof.
  intros [_ H]. split; [apply NoDup_singleton|].
  intros b' ->%list_elem_of_singleton. apply H. by left.
Qed.

Lemma pending_tail b l w w1 :
  pending (b :: l) w → rewritten [id b] (db w) (db w1) → pending l w1.
Proof.
  intros [Hnd H] Hrw. apply NoDup_cons in Hnd as [Hb Hnd]. split; [done|].
  intros b' Hb'. destruct (H b') as [Hs Hr]; [by right|]. split; [|done].
  destruct (rewritten_facts _ _ _ Hrw) as (_ & Hout & _). rewrite Hout; [done|].
  intros Heq%list_elem_of_singleton. apply Hb. rewrite <- Heq.
  apply list_elem_of_fmap. eauto.
Qed.

Lemma recoverEach_rewritten l : ∀ n w,
  keyed (db w) → pending l w →
  rewritten (id <$> l) (db w) (db (recoverEach l n w).2).
Proof.
  induction l as [|b l IH]; intros n w Hk Hst; [constructor|].
  pose proof (recover_turn b n w Hk (pending_head _ _ _ Hst)) as Hturn.
  simpl. unfold bind at 1.
  destruct (try_catch _ _ w) as [[n'|e] w1]; simpl in *.
  - eapply rewritten_trans; [by apply rewritten_head|].
    apply rewritten_tail, IH; [by eapply rewritten_keyed|].
    by eapply pending_tail.
  - by apply rewritten_head.
Qed.

Lemma processEach_rewritten l : ∀ w,
  keyed (db w) →
  rewritten (id <$> l) (db w) (db (processEach l w).2).
Proof.
  induction l as [|b l IH]; intros w Hk; [constructor|].
  pose proof (process_turn b w Hk) as Hturn. simpl. unfold bind at 1.
  destruct (try_catch _ _ w) as [[[]|e] w1]; simpl in *.
  - eapply rewritten_trans; [by apply rewritten_head|].
    apply rewritten_tail, IH. by eapply rewritten_keyed.
  - by apply rewritten_head.
Qed.

Lemma recoverCompletedBuilds_rewritten w :
  keyed (db w) →
  rewritten (id <$> findDue (clock w) (db w)) (db w)
    (db (recoverCompletedBuilds w).2).
Proof.
  intros Hk. unfold recoverCompletedBuilds, bind.
  pose proof (getBuildsToComplete_inv w) as Hq.
  destruct (getBuildsToComplete w) as [[l|e] w1]; simpl.
  - destruct Hq as [-> Hdb].
    pose proof (recoverEach_rewritten (findDue (clock w) (db w)) 0%nat w1) as H.
    rewrite Hdb in H. apply H; [done|]. by apply findDue_pending.
  - rewrite Hq. constructor.
Qed.

Lemma processCompletedBuilds_rewritten w :
  keyed (db w) →
  rewritten (id <$> findDue (clock w) (db w)) (db w)
    (db (processCompletedBuilds w).2).
Proof.
  intros Hk. unfold processCompletedBuilds, finally, try_catch, bind, get,
    modify, ret.
  destruct (isProcessing w); [constructor|].
  pose proof (getBuildsToComplete_inv (set_isProcessing true w)) as Hq.
  destruct (getBuildsToComplete (set_isProcessing true w)) as [[l|e] w1];
    simpl in *.
  - destruct Hq as [-> Hdb].
    pose proof (processEach_rewritten (findDue (clock w) (db w)) w1) as Hp.
    rewrite Hdb in Hp. specialize (Hp Hk).
    destruct (0 <? length (findDue (clock w) (db w)))%nat eqn:Hlen.
    + by destruct (processEach _ w1) as [[[]|e] w2].
    + destruct (findDue (clock w) (db w)); [|done]. simpl. rewrite Hdb.
      constructor.
  - rewrite Hq. constructor.
Qed.

(** ** What the ledger and the records account for *)

Lemma sumZ_Permutation l1 l2 : l1 ≡ₚ l2 → sumZ l1 = sumZ l2.
Proof. induction 1; simpl in *; lia. Qed.

Lemma rows_insert_fresh us m i b :
  m !! i = None → rows (mkDB us (<[i := b]> m)) ≡ₚ b :: rows (mkDB us m).
Proof.
  intros Hi. unfold rows; simpl. by rewrite map_to_list_insert.
Qed.

Lemma rows_insert_over us m i b0 b :
  m !! i = Some b0 →
  rows (mkDB us (<[i := b]> m)) ≡ₚ b :: rows (mkDB us (delete i m)) ∧
  rows (mkDB us m) ≡ₚ b0 :: rows (mkDB us (delete i m)).
Proof.
  intros Hi. unfold rows; simpl. split.
  - rewrite <- insert_delete_eq, map_to_list_insert; [done|].
    apply lookup_delete_eq.
  - by rewrite <- (map_to_list_delete m i b0).
Qed.

Lemma paid_users r u us us' m : paid r u (mkDB us m) = paid r u (mkDB us' m).
Proof. done. Qed.

Lemma paid_insert_fresh r u us m i b :
  m !! i = None →
  paid r u (mkDB us (<[i := b]> m))
  = (if decide (userId b = u) then costOf r b else 0) + paid r u (mkDB us m).
Proof.
  intros Hi. unfold paid.
  rewrite (sumZ_Permutation _ _
             (fmap_Permutation _ _ _ (rows_insert_fresh us m i b Hi))).
  done.
Qed.

Lemma costOf_sameCore r a b : sameCore a b → costOf r a = costOf r b.
Proof. intros (_ & _ & _ & _ & _ & ? & ? & ? & ?). by destruct r. Qed.

Lemma paid_insert_over r u us m i b0 b :
  m !! i = Some b0 → sameCore b0 b →
  paid r u (mkDB us (<[i := b]> m)) = paid r u (mkDB us m).
Proof.
  intros Hi Hc. destruct (rows_insert_over us m i b0 b Hi) as [H1 H2].
  unfold paid.
  rewrite (sumZ_Permutation _ _ (fmap_Permutation _ _ _ H1)).
  rewrite (sumZ_Permutation _ _ (fmap_Permutation _ _ _ H2)). simpl.
  rewrite (costOf_sameCore r b0 b Hc).
  destruct Hc as (_ & -> & _). done.
Qed.

Lemma paid_rewritten r u ids d d' :
  rewritten ids d d' → paid r u d' = paid r u d.
Proof.
  induction 1 as [d|d i b0 b' d' Hi Hb Hr Hc _ IH]; [done|].
  rewrite IH. destruct d as [us m]. by apply (paid_insert_over _ _ _ _ _ b0).
Qed.

Lemma held_rewritten r u ids d d' :
  rewritten ids d d' → held r u d' = held r u d.
Proof.
  intros H. destruct (rewritten_facts _ _ _ H) as (Hu & _). unfold held.
  by rewrite Hu.
Qed.

Lemma balanceOf_deduct r ur dto :
  balanceOf r (deduct ur dto)
  = balanceOf r ur - costOf r (newBuild dto 0 EmptyString).
Proof. by destruct r. Qed.

Lemma started_accounted r u dto d d' :
  started dto d d' →
  held r u d' + paid r u d' = held r u d + paid r u d.
Proof.
  intros (ur & t & Hur & _ & ->). destruct d as [us m]; simpl in *.
  rewrite paid_insert_fresh by apply (fresh_build_key (mkDB us m)).
  rewrite (paid_users r u _ us). unfold held; simpl.
  destruct (decide (dto_userId dto = u)) as [<-|Hne].
  - rewrite lookup_insert_eq, Hur. simpl. rewrite balanceOf_deduct.
    rewrite ?decide_True by done. destruct r; simpl; lia.
  - rewrite lookup_insert_ne by done. rewrite ?decide_False by done. lia.
Qed.

Lemma started_keyed dto d d' : keyed d → started dto d d' → keyed d'.
Proof.
  intros [Hu Hk] (ur & t & Hur & _ & ->). split; simpl.
  - apply map_Forall_insert_2; [|done]. simpl. by apply (Hu _ _ Hur).
  - by apply map_Forall_insert_2.
Qed.

Lemma started_persist dto d d' :
  started dto d d' →
  ∀ i b, builds d !! i = Some b → builds d' !! i = Some b.
Proof.
  intros (ur & t & _ & _ & ->) i b Hb. simpl.
  rewrite lookup_insert_ne; [done|]. intros <-.
  rewrite fresh_build_key in Hb. done.
Qed.

Lemma started_nonNegative dto d d' :
  started dto d d' → nonNegative d → nonNegative d'.
Proof.
  intros (ur & t & Hur & Hins & ->) Hn. unfold nonNegative; simpl.
  apply map_Forall_insert_2; [|done]. specialize (Hn _ _ Hur). simpl in Hn.
  apply insufficient_false in Hins. rewrite <- !orZero_default in Hins.
  simpl. lia.
Qed.

(** Each operation either overwrites stored records in place or is a
    successful start. *)
Lemma perform_cases o w :
  keyed (db w) →
  (∃ ids, rewritten ids (db w) (db (perform o w))) ∨
  (∃ dto, started dto (db w) (db (perform o w))).
Proof.
  intros Hk. destruct o as [dto|i st| | |ms]; simpl.
  - pose proof (startBuild_outcome dto w) as H.
    destruct (startBuild dto w) as [[b|e] w']; simpl.
    + right. exists dto. destruct H as (ur & t & Hur & Hins & _ & -> & ->).
      exists ur, t. destruct Hk as [Hu _]. rewrite (Hu _ _ Hur). done.
    + left. exists []. destruct H as [-> _]. constructor.
  - left. eexists. by apply completeBuild_rewritten.
  - left. eexists. by apply processCompletedBuilds_rewritten.
  - left. eexists. unfold onModuleInit, bind, ret.
    pose proof (recoverCompletedBuilds_rewritten w Hk) as H.
    by destruct (recoverCompletedBuilds w) as [[n|e] w'].
  - left. exists []. constructor.
Qed.

Lemma not_due_outside now d i b :
  keyed d → builds d !! i = Some b → ¬ isDue now b →
  i ∉ id <$> findDue now d.
Proof.
  intros Hk Hb Hn (b' & -> & Hb')%list_elem_of_fmap.
  destruct (findDue_stored _ _ _ Hk Hb') as [Hs Hd]. congruence.
Qed.

(** What a batch operation leaves alone, from what it may overwrite. *)
Lemma batch_confined now d d' :
  keyed d → rewritten (id <$> findDue now d) d d' →
  users d' = users d ∧
  (∀ i, builds d !! i = None → builds d' !! i = None) ∧
  (∀ i b, builds d !! i = Some b →
     (∃ b', builds d' !! i = Some b' ∧ sameCore b b') ∧
     (¬ isDue now b → builds d' !! i = Some b)).
Proof.
  intros Hk H.
  destruct (rewritten_facts _ _ _ H) as (Hu & Hout & Hn & Hs & _).
  repeat split; try done; [by apply Hs|].
  intros Hnd. rewrite Hout; [done|]. by eapply not_due_outside.
Qed.

(** X1.  With a data source whose driver does not take the
    [pessimistic_write] lock, as the configured sqlite, [startBuild] never
    returns and never changes the tables: whatever the request and whatever
    the store does, it throws LockNotSupportedOnGivenDriverError or an error
    of the store; with a store that raises no error it throws
    LockNotSupportedOnGivenDriverError and leaves no transaction open. *)
Theorem startBuild_lock_refused dto w :
  pessimisticWriteSupported (driver w) = false →
  ∃ e w',
    startBuild dto w = (Throw e, w') ∧ db w' = db w ∧
    (e = LockNotSupportedOnGivenDriverError ∨ ∃ m, e = QueryFailedError m) ∧
    (quiet w → e = LockNotSupportedOnGivenDriverError ∧ tx w' = None).
Proof.
  intros Hl. pose proof (startBuild_without_lock dto w Hl) as H.
  pose proof (startBuild_without_lock_quiet dto w Hl) as Q.
  destruct (startBuild dto w) as [[b|e] w']; [done|].
  exists e, w'. destruct H as [Hdb He]. do 3 (split; [done|]).
  intros Hq. destruct (Q Hq) as (w'' & [= <- <-] & Ht). done.
Qed.

(** ** The read operations *)

Lemma getBuild_outcome i w :
  match getBuild i w with
  | (Ok b, w') => builds (db w) !! i = Some b ∧ db w' = db w
  | (Throw e, w') => db w' = db w
  end.
Proof.
  unfold getBuild. unfold_svc. store_step; [|done].
  by destruct (builds (db w) !! i).
Qed.

Lemma getBuild_quiet i w :
  quiet w →
  (getBuild i w).1
  = match builds (db w) !! i with
    | Some b => Ok b
    | None => Throw (NotFoundException ("Build " ++ i ++ " not found"))
    end.
Proof.
  intros Hq. unfold quiet in Hq. unfold getBuild. unfold_svc. quiet_step.
  by destruct (builds (db w) !! i).
Qed.

(** X3.  [getBuild] never changes the tables and only ever returns the
    record stored under the id; with a store that raises no error it returns
    that record, or throws NotFoundException 'Build <id> not found' when there
    is none.  In particular the record returned by a successful [startBuild]
    is what [getBuild] returns for its id afterwards. *)
Theorem getBuild_lookup i w :
  keyed (db w) →
  ∃ r w',
    getBuild i w = (r, w') ∧ db w' = db w ∧
    (∀ b, r = Ok b → builds (db w) !! i = Some b ∧ id b = i) ∧
    (quiet w →
       r = match builds (db w) !! i with
           | Some b => Ok b
           | None => Throw (NotFoundException ("Build " ++ i ++ " not found"))
           end) ∧
    (∀ dto w0 b, startBuild dto w0 = (Ok b, w) → i = id b → quiet w →
                 r = Ok b).
Proof.
  intros [_ Hk]. pose proof (getBuild_outcome i w) as H.
  pose proof (getBuild_quiet i w) as Q.
  destruct (getBuild i w) as [r w']. exists r, w'. simpl in Q.
  split; [done|]. split; [by destruct r as [b|e]; [destruct H|]|].
  split; [|split].
  - intros b ->. destruct H as [Hb _]. split; [done|]. by apply (Hk i b).
  - done.
  - intros dto w0 b E -> Hq. rewrite (Q Hq).
    pose proof (startBuild_outcome dto w0) as Hs. rewrite E in Hs.
    destruct Hs as (ur & t & _ & _ & _ & _ & ->). simpl.
    by rewrite lookup_insert_eq.
Qed.

Lemma elem_of_findByUser uid d b :
  b ∈ findByUser uid d ↔ (∃ i, builds d !! i = Some b) ∧ userId b = uid.
Proof.
  unfold findByUser.
  rewrite merge_sort_Permutation, list_elem_of_filter, elem_of_rows. tauto.
Qed.

(** X4.  [getUserBuilds] returns exactly the stored records of the user,
    each once per stored copy, newest start first, and changes nothing; for a
    user without records the answer is empty. *)
Theorem getUserBuilds_listing uid w l w' :
  getUserBuilds uid w = (Ok l, w') →
  (∀ b, b ∈ l ↔ (∃ i, builds (db w) !! i = Some b) ∧ userId b = uid) ∧
  l ≡ₚ filter (fun b => userId b = uid) (rows (db w)) ∧
  StronglySorted (fun a b => startTime b ≤ startTime a) l ∧
  db w' = db w ∧
  ((∀ i b, builds (db w) !! i = Some b → userId b ≠ uid) → l = []).
Proof.
  unfold getUserBuilds. unfold_svc.
  store_step; [|done]. intros [= <- <-]. simpl.
  split; [intros b; apply elem_of_findByUser|].
  split; [apply merge_sort_Permutation|].
  split; [apply (StronglySorted_merge_sort byStartTimeDesc)|].
  split; [done|].
  intros Hnone. apply elem_of_nil_inv. intros b Hb.
  apply elem_of_findByUser in Hb as [[i Hi] Hu]. by apply (Hnone i b).
Qed.

Lemma elem_of_findRunning d b :
  b ∈ findRunning d ↔ (∃ i, builds d !! i = Some b) ∧ status b = RUNNING.
Proof.
  unfold findRunning.
  rewrite merge_sort_Permutation, list_elem_of_filter, elem_of_rows. tauto.
Qed.

(** X5.  [getRunningBuilds] returns exactly the stored Running records in
    ascending order of executeAt and changes nothing; the answer of the due
    query at any time is, up to order, the part of it with executeAt <= now. *)
Theorem getRunningBuilds_listing w l w' :
  getRunningBuilds w = (Ok l, w') →
  (∀ b, b ∈ l ↔ (∃ i, builds (db w) !! i = Some b) ∧ status b = RUNNING) ∧
  StronglySorted byExecuteAt l ∧
  db w' = db w ∧
  (∀ now, findDue now (db w) ≡ₚ filter (fun b => executeAt b ≤ now) l).
Proof.
  unfold getRunningBuilds. unfold_svc.
  store_step; [|done]. intros [= <- <-]. simpl.
  split; [intros b; apply elem_of_findRunning|].
  split; [apply StronglySorted_merge_sort; apply _|].
  split; [done|].
  intros now. unfold findDue, findRunning. rewrite !merge_sort_Permutation.
  rewrite list_filter_filter. apply reflexive_eq, list_filter_iff.
  intros b. unfold isDue. tauto.
Qed.

(** ** Completion under any behaviour of the store *)

(** X6.  Whatever the store does, [completeBuild] never touches the ledger,
    never adds or removes a record, never changes a record other than the one
    under the given id, and leaves the fixed columns of that one (id, owner,
    type, startTime, executeAt, costs) as they were. *)
Theorem completeBuild_confined i st w :
  keyed (db w) →
  users (db (completeBuild i st w).2) = users (db w) ∧
  dom (builds (db (completeBuild i st w).2)) = dom (builds (db w)) ∧
  (∀ j, j ≠ i →
        builds (db (completeBuild i st w).2) !! j = builds (db w) !! j) ∧
  (∀ b, builds (db w) !! i = Some b →
        ∃ b', builds (db (completeBuild i st w).2) !! i = Some b' ∧
              sameCore b b').
Proof.
  intros Hk. pose proof (completeBuild_rewritten i st w Hk) as H.
  destruct (rewritten_facts _ _ _ H) as (Hu & Hout & Hn & Hs & _).
  split; [done|]. split; [|split].
  - apply set_eq. intros j. rewrite !elem_of_dom.
    destruct (builds (db w) !! j) as [b|] eqn:Hb.
    + destruct (Hs j b Hb) as (b' & -> & _). by split; eauto.
    + rewrite (Hn j Hb). done.
  - intros j Hj. apply Hout. by intros ->%list_elem_of_singleton.
  - intros b Hb. by apply Hs.
Qed.

Lemma completeBuild_absent_quiet i st w :
  quiet w → builds (db w) !! i = None →
  (completeBuild i st w).1
  = Throw (NotFoundException ("Build " ++ i ++ " not found")).
Proof.
  intros Hq Hb. destruct (completeBuild_quiet i st w Hq) as (r & w' & E & _ & _ & H).
  rewrite Hb in H. destruct H as [-> _]. by rewrite E.
Qed.

(** X7.  [completeBuild] for an id without a record changes nothing and
    throws; with a store that raises no error the exception is
    NotFoundException 'Build <id> not found'. *)
Theorem completeBuild_missing i st w :
  builds (db w) !! i = None →
  ∃ e w',
    completeBuild i st w = (Throw e, w') ∧ db w' = db w ∧
    (quiet w → e = NotFoundException ("Build " ++ i ++ " not found")).
Proof.
  intros Hb. destruct (completeBuild_absent i st w Hb) as (e & w' & E & Hdb).
  exists e, w'. repeat split; [done..|].
  intros Hq. pose proof (completeBuild_absent_quiet i st w Hq Hb) as Q.
  rewrite E in Q. simpl in Q. congruence.
Qed.

(** ** The tick and the sweep under any behaviour of the store *)

(** X8.  A scheduler tick never throws, whatever the store does, and leaves
    the [isProcessing] flag as it found it: an idle scheduler is idle again
    after the tick, and a tick that finds the flag set changes nothing. *)
Theorem processCompletedBuilds_never_throws w :
  (processCompletedBuilds w).1 = Ok tt ∧
  isProcessing (processCompletedBuilds w).2 = isProcessing w ∧
  (isProcessing w = true → (processCompletedBuilds w).2 = w).
Proof.
  unfold processCompletedBuilds, finally, try_catch, bind, get, modify, ret.
  destruct (isProcessing w) eqn:Hp; [done|].
  destruct (getBuildsToComplete (set_isProcessing true w)) as [[l|e] w1];
    simpl; [|done].
  destruct (0 <? length l)%nat; [|done].
  by destruct (processEach l w1) as [[[]|e] w2].
Qed.

(** X9.  Whatever the store does, a tick never touches the ledger, never
    adds or removes a record, leaves every record that was not due when the
    tick started exactly as it was, and leaves the fixed columns of every
    record as they were. *)
Theorem processCompletedBuilds_confined w :
  keyed (db w) →
  users (db (processCompletedBuilds w).2) = users (db w) ∧
  (∀ i, builds (db w) !! i = None →
        builds (db (processCompletedBuilds w).2) !! i = None) ∧
  (∀ i b, builds (db w) !! i = Some b →
     (∃ b', builds (db (processCompletedBuilds w).2) !! i = Some b' ∧
            sameCore b b') ∧
     (¬ isDue (clock w) b →
      builds (db (processCompletedBuilds w).2) !! i = Some b)).
Proof.
  intros Hk. apply batch_confined; [done|].
  by apply processCompletedBuilds_rewritten.
Qed.

(** X10.  The same for the recovery sweep, also when it is cut short by an
    exception. *)
Theorem recoverCompletedBuilds_confined w :
  keyed (db w) →
  users (db (recoverCompletedBuilds w).2) = users (db w) ∧
  (∀ i, builds (db w) !! i = None →
        builds (db (recoverCompletedBuilds w).2) !! i = None) ∧
  (∀ i b, builds (db w) !! i = Some b →
     (∃ b', builds (db (recoverCompletedBuilds w).2) !! i = Some b' ∧
            sameCore b b') ∧
     (¬ isDue (clock w) b →
      builds (db (recoverCompletedBuilds w).2) !! i = Some b)).
Proof.
  intros Hk. apply batch_confined; [done|].
  by apply recoverCompletedBuilds_rewritten.
Qed.








(** ** Runs: any operations in any order, whatever the store does *)

Lemma performAll_invariant (P : DB → Prop) :
  (∀ ids d d', keyed d → P d → rewritten ids d d' → P d') →
  (∀ dto d d', keyed d → P d → started dto d d' → P d') →
  ∀ ops w, keyed (db w) → P (db w) →
           keyed (db (performAll ops w)) ∧ P (db (performAll ops w)).
Proof.
  intros Hrw Hst ops. induction ops as [|o ops IH]; intros w Hk HP; [done|].
  simpl. destruct (perform_cases o w Hk) as [[ids H]|[dto H]].
  - apply IH; [by eapply rewritten_keyed|by eapply Hrw].
  - apply IH; [by eapply started_keyed|by eapply Hst].
Qed.

(** X14.  The tables stay sound over any run: rows stay under their own
    keys and no balance field ever becomes negative, through any sequence of
    start requests, completion calls, ticks, start-up sweeps and waiting,
    whichever of them fail. *)
Theorem run_keeps_tables_sound ops w :
  keyed (db w) → nonNegative (db w) →
  keyed (db (performAll ops w)) ∧ nonNegative (db (performAll ops w)).
Proof.
  apply (performAll_invariant nonNegative).
  - intros ids d d' _ Hn H. destruct (rewritten_facts _ _ _ H) as (Hu & _).
    unfold nonNegative. by rewrite Hu.
  - intros dto d d' _ Hn H. by eapply started_nonNegative.
Qed.

(** X15.  Nothing is lost and nothing is refunded: over any run, for every
    user and every resource, the balance plus the costs written in the user's
    records is constant.  What left the ledger is in the records, and
    completing or failing a build gives nothing back. *)
Theorem run_accounted ops w r u :
  keyed (db w) →
  held r u (db (performAll ops w)) + paid r u (db (performAll ops w))
  = held r u (db w) + paid r u (db w).
Proof.
  intros Hk.
  apply (performAll_invariant
           (fun d => held r u d + paid r u d = held r u (db w) + paid r u (db w)));
    [| |done..].
  - intros ids d d' _ <- H.
    by rewrite (held_rewritten _ _ _ _ _ H), (paid_rewritten _ _ _ _ _ H).
  - intros dto d d' _ <- H. by eapply started_accounted.
Qed.

(** X16.  Records are never deleted and their fixed columns never change:
    over any run, a stored record is still stored under its id, with the same
    owner, type, startTime, executeAt and costs. *)
Theorem run_records_persist ops w i b :
  keyed (db w) →
  builds (db w) !! i = Some b →
  ∃ b', builds (db (performAll ops w)) !! i = Some b' ∧ sameCore b b'.
Proof.
  intros Hk Hb.
  apply (performAll_invariant
           (fun d => ∃ b', builds d !! i = Some b' ∧ sameCore b b'));
    [| |done|].
  - intros ids d d' _ (b1 & Hb1 & Hc1) H.
    destruct (rewritten_facts _ _ _ H) as (_ & _ & _ & Hs & _).
    destruct (Hs _ _ Hb1) as (b2 & Hb2 & Hc2). exists b2. split; [done|].
    by eapply sameCore_trans.
  - intros dto d d' _ (b1 & Hb1 & Hc1) H. exists b1. split; [|done].
    by eapply started_persist.
  - exists b. split; [done|apply sameCore_refl].
Qed.

(** X17.  Terminal records are final: over any run of operations that
    follow one another, a record that is not Running is never changed again,
    by no completion call with whatever status, no tick and no sweep. *)
Theorem run_terminal_final ops w i b :
  keyed (db w) →
  builds (db w) !! i = Some b → status b ≠ RUNNING →
  builds (db (performAll ops w)) !! i = Some b.
Proof.
  intros Hk Hb Hs.
  apply (performAll_invariant (fun d => builds d !! i = Some b)); [| |done..].
  - intros ids d d' _ Hb1 H.
    destruct (rewritten_facts _ _ _ H) as (_ & _ & _ & _ & Ht). by apply Ht.
  - intros dto d d' _ Hb1 H. by eapply started_persist.
Qed.

(** ** Batches when the store raises no error *)

(** X24.  With a store that raises no error, a tick of an idle scheduler
    completes every record that is due when the tick starts (Running with
    executeAt <= now): the record is stored as Completed with endTime the time
    of its completion and duration endTime - startTime.  Every other record
    and the ledger are as before, no record is added, and the scheduler is
    idle again. *)
Theorem tick_completes_all_due w :
  keyed (db w) → quiet w → isProcessing w = false →
  ∃ w',
    processCompletedBuilds w = (Ok tt, w') ∧
    isProcessing w' = false ∧
    users (db w') = users (db w) ∧
    (∀ i, builds (db w) !! i = None → builds (db w') !! i = None) ∧
    (∀ i b, builds (db w) !! i = Some b →
       if decide (isDue (clock w) b)
       then ∃ t, clock w ≤ t ∧
                 builds (db w') !! i = Some (completed b t COMPLETED)
       else builds (db w') !! i = Some b).
Proof.
  intros Hk Hq Hidle.
  destruct (processCompletedBuilds_quiet w Hk Hq Hidle) as (w' & E & Hp & H).
  exists w'. by repeat split; try apply H.
Qed.

(** X25.  With a store that raises no error, the start-up sweep completes
    every record that is due in the same way, leaves everything else alone,
    and returns the number of records that were due. *)
Theorem sweep_completes_all_due w :
  keyed (db w) → quiet w →
  ∃ w',
    recoverCompletedBuilds w
      = (Ok (length (filter (isDue (clock w)) (rows (db w)))), w') ∧
    users (db w') = users (db w) ∧
    (∀ i, builds (db w) !! i = None → builds (db w') !! i = None) ∧
    (∀ i b, builds (db w) !! i = Some b →
       if decide (isDue (clock w) b)
       then ∃ t, clock w ≤ t ∧
                 builds (db w') !! i = Some (completed b t COMPLETED)
       else builds (db w') !! i = Some b).
Proof.
  intros Hk Hq.
  destruct (recoverCompletedBuilds_quiet w Hk Hq) as (w' & E & H).
  exists w'. by repeat split; try apply H.
Qed.

(** * Properties of the in-memory timer *)

Section JsMap.
Context {V : Type}.
Implicit Types m : list (string * V).

Lemma mapGet_None k m : mapGet k m = None ↔ k ∉ m.*1.
Proof.
  induction m as [|[k' v] m IH]; simpl.
  - split; [intros _; apply not_elem_of_nil|done].
  - rewrite not_elem_of_cons. destruct (decide (k' = k)) as [->|Hne].
    + split; [done|]. by intros [? _].
    + rewrite IH. split; [by intros ?; split|by intros [_ ?]].
Qed.

Lemma mapGet_elem_of k v m : mapGet k m = Some v → (k, v) ∈ m.
Proof.
  induction m as [|[k' v'] m IH]; simpl; [done|].
  destruct (decide (k' = k)) as [->|Hne].
  - intros [= ->]. by left.
  - intros H. right. by apply IH.
Qed.

Lemma elem_of_mapGet k v m : NoDup m.*1 → (k, v) ∈ m → mapGet k m = Some v.
Proof.
  induction m as [|[k' v'] m IH]; simpl.
  - intros _ H. by apply elem_of_nil in H.
  - intros [Hk Hnd]%NoDup_cons [[= -> ->]|Hin]%elem_of_cons.
    + by rewrite decide_True.
    + rewrite decide_False; [by apply IH|].
      intros ->. apply Hk. apply list_elem_of_fmap. by exists (k, v).
Qed.

Lemma mapGet_mapSet k v m j :
  mapGet j (mapSet k v m) = if decide (k = j) then Some v else mapGet j m.
Proof.
  induction m as [|[k' v'] m IH]; simpl.
  - by destruct (decide (k = j)).
  - destruct (decide (k' = k)) as [->|Hne]; simpl.
    + by destruct (decide (k = j)).
    + destruct (decide (k' = j)) as [->|Hne'].
      * by rewrite decide_False.
      * apply IH.
Qed.

Lemma mapSet_absent k v m : mapGet k m = None → mapSet k v m = (m ++ [(k, v)])%list.
Proof.
  induction m as [|[k' v'] m IH]; simpl; [done|].
  destruct (decide (k' = k)); [done|]. intros H. by rewrite IH.
Qed.

Lemma mapSet_keys k v m : is_Some (mapGet k m) → (mapSet k v m).*1 = m.*1.
Proof.
  induction m as [|[k' v'] m IH]; simpl; [by intros [? ?]|].
  destruct (decide (k' = k)) as [->|Hne]; [done|].
  intros H. simpl. f_equal. by apply IH.
Qed.

Lemma elem_of_mapSet k v m j x :
  (j, x) ∈ mapSet k v m → (j = k ∧ x = v) ∨ (j, x) ∈ m.
Proof.
  induction m as [|[k' v'] m IH]; simpl.
  - intros [= -> ->]%list_elem_of_singleton. by left.
  - destruct (decide (k' = k)) as [->|Hne].
    + intros [[= -> ->]|H]%elem_of_cons; [by left|]. right. by right.
    + intros [[= -> ->]|H]%elem_of_cons; [right; by left|].
      destruct (IH H) as [?|?]; [by left|]. right. by right.
Qed.

Lemma mapGet_mapDelete k m j :
  mapGet j (mapDelete k m) = if decide (k = j) then None else mapGet j m.
Proof.
  unfold mapDelete. induction m as [|[k' v'] m IH]; simpl.
  - by destruct (decide (k = j)).
  - rewrite filter_cons. simpl. destruct (decide (k' ≠ k)) as [Hne|Heq]; simpl.
    + destruct (decide (k' = j)) as [->|Hne'].
      * by rewrite decide_False.
      * apply IH.
    + apply dec_stable in Heq as ->. rewrite IH.
      by destruct (decide (k = j)).
Qed.

Lemma mapDelete_absent k m : mapGet k m = None → mapDelete k m = m.
Proof.
  unfold mapDelete. induction m as [|[k' v'] m IH]; simpl; [done|].
  rewrite filter_cons. simpl. destruct (decide (k' = k)) as [->|Hne]; [done|].
  intros H. rewrite decide_True by done. by rewrite IH.
Qed.

Lemma NoDup_mapSet k v m : NoDup m.*1 → NoDup (mapSet k v m).*1.
Proof.
  intros Hnd. destruct (mapGet k m) eqn:Hg.
  - by rewrite mapSet_keys.
  - rewrite mapSet_absent, fmap_app by done. simpl.
    apply NoDup_app. split; [done|]. split; [|apply NoDup_singleton].
    intros j Hj ->%list_elem_of_singleton. by apply mapGet_None in Hg.
Qed.

Lemma NoDup_mapDelete k m : NoDup m.*1 → NoDup (mapDelete k m).*1.
Proof.
  intros Hnd. eapply sublist_NoDup; [done|].
  apply fmap_sublist, sublist_filter.
Qed.
End JsMap.

(** X18.  [startBuild] of the timer: for an id that is not in use it stores
    and returns a running result that started now, which [getBuild] then
    finds, after all earlier results in [getAllBuilds], leaving the others as
    they were; for an id in use it throws 'already exists' and changes
    nothing. *)
Theorem timer_startBuild_spec now i t :
  match timer_getBuild i t with
  | Some _ =>
      timer_startBuild now i t
      = (Throws (timerMessage i " already exists"), t)
  | None =>
      (timer_startBuild now i t).1
        = Returns (mkTimerResult i now None None TRunning true) ∧
      timer_getBuild i (timer_startBuild now i t).2
        = Some (mkTimerResult i now None None TRunning true) ∧
      (∀ j, j ≠ i →
            timer_getBuild j (timer_startBuild now i t).2 = timer_getBuild j t) ∧
      timer_getAllBuilds (timer_startBuild now i t).2
        = (timer_getAllBuilds t
           ++ [mkTimerResult i now None None TRunning true])%list
  end.
Proof.
  unfold timer_getBuild, timer_startBuild, timer_getAllBuilds, mapHas, mapValues.
  destruct (mapGet i (tm_builds t)) eqn:Hg; [done|]. simpl.
  split; [done|]. split; [|split].
  - rewrite mapGet_mapSet. by rewrite decide_True.
  - intros j Hj. rewrite mapGet_mapSet. by rewrite decide_False.
  - rewrite mapSet_absent by done. by rewrite fmap_app.
Qed.

Lemma timer_validateDuration_iff o d :
  timer_validateDuration o d = true ↔
  minDuration o ≤ d ∧ ∀ max, maxDuration o = Some max → d ≤ max.
Proof.
  unfold timer_validateDuration.
  destruct (Z.ltb_spec d (minDuration o)).
  - split; [done|]. intros [? _]. lia.
  - destruct (maxDuration o) as [max|].
    + destruct (Z.ltb_spec max d).
      * split; [done|]. intros [_ H']. specialize (H' max eq_refl). lia.
      * split; [|done]. intros _. split; [done|]. intros ? [= <-]. done.
    + split; [|done]. intros _. split; [done|]. done.
Qed.

(** X19.  [stopBuild] of the timer on a running build sets endTime to now
    and duration to now - startTime, the status to the one given, and isValid
    to whether the duration lies within the configured bounds (no upper bound
    when none was configured); it stores the result in the place of the old
    one, so that [getBuild] finds it, and leaves the other builds and the
    order of [getAllBuilds] as they were. *)
Theorem timer_stopBuild_spec now i st t b :
  timer_getBuild i t = Some b → tr_status b = TRunning →
  ∃ r t',
    timer_stopBuild now i st t = (Returns r, t') ∧
    tr_buildId r = tr_buildId b ∧ tr_startTime r = tr_startTime b ∧
    tr_endTime r = Some now ∧
    tr_duration r = Some (now - tr_startTime b) ∧
    tr_status r = toStatus st ∧
    (tr_isValid r = true ↔
       minDuration (tm_options t) ≤ now - tr_startTime b ∧
       ∀ max, maxDuration (tm_options t) = Some max →
              now - tr_startTime b ≤ max) ∧
    timer_getBuild i t' = Some r ∧
    (∀ j, j ≠ i → timer_getBuild j t' = timer_getBuild j t) ∧
    (tm_builds t').*1 = (tm_builds t).*1 ∧
    tm_options t' = tm_options t.
Proof.
  unfold timer_getBuild, timer_stopBuild. intros Hg Hs. rewrite Hg.
  rewrite decide_True by done. do 2 eexists. split; [done|]. simpl.
  do 5 (split; [done|]).
  split; [apply timer_validateDuration_iff|].
  split; [by rewrite mapGet_mapSet, decide_True|].
  split; [|split; [by apply mapSet_keys|done]].
  intros j Hj. by rewrite mapGet_mapSet, decide_False.
Qed.

(** X20.  A stopped build is final: [stopBuild] on an id that is not stored
    throws 'not found'; once a build has been stopped, stopping it again, at
    any time and with any status, throws 'is not running', and starting its
    id again throws 'already exists'; none of these calls changes the timer. *)
Theorem timer_stop_is_final now i st t r t' :
  timer_stopBuild now i st t = (Returns r, t') →
  (∀ now2 st2,
     timer_stopBuild now2 i st2 t'
     = (Throws (timerMessage i " is not running"), t')) ∧
  (∀ now2,
     timer_startBuild now2 i t'
     = (Throws (timerMessage i " already exists"), t')) ∧
  (∀ j now2 st2,
     timer_getBuild j t' = None →
     timer_stopBuild now2 j st2 t'
     = (Throws (timerMessage j " not found"), t')).
Proof.
  unfold timer_stopBuild at 1. destruct (mapGet i (tm_builds t)) as [b|] eqn:Hg;
    [|done].
  destruct (decide (tr_status b = TRunning)); [|done]. intros [= <- <-].
  split; [|split].
  - intros now2 st2. unfold timer_stopBuild. simpl.
    rewrite mapGet_mapSet, decide_True by done. simpl.
    rewrite decide_False; [done|]. by destruct st.
  - intros now2. unfold timer_startBuild, mapHas. simpl.
    by rewrite mapGet_mapSet, decide_True.
  - intros j now2 st2. unfold timer_getBuild, timer_stopBuild. simpl.
    by intros ->.
Qed.

(** X21.  [validateClientEndTime]: for a build that has been stopped at
    time [now] the answer is true exactly when the client's time is within
    the tolerance of [now] (5000 ms when no tolerance is given), on either
    side; for a build that has only been started the answer is false, and so
    it is for an id that is not stored. *)
Theorem timer_validateClientEndTime_spec i t :
  (∀ now st r t' c tol,
     timer_stopBuild now i st t = (Returns r, t') →
     (timer_validateClientEndTime i c tol t' = true ↔
      now - default 5000 tol ≤ c ≤ now + default 5000 tol)) ∧
  (∀ now r t' c tol,
     timer_startBuild now i t = (Returns r, t') →
     timer_validateClientEndTime i c tol t' = false) ∧
  (∀ c tol,
     timer_getBuild i t = None →
     timer_validateClientEndTime i c tol t = false).
Proof.
  split; [|split].
  - intros now st r t' c tol. unfold timer_stopBuild.
    destruct (mapGet i (tm_builds t)) as [b|] eqn:Hg; [|done].
    destruct (decide (tr_status b = TRunning)); [|done]. intros [= <- <-].
    unfold timer_validateClientEndTime. simpl.
    rewrite mapGet_mapSet, decide_True by done. simpl.
    rewrite Z.leb_le. lia.
  - intros now r t' c tol. unfold timer_startBuild, mapHas.
    destruct (mapGet i (tm_builds t)) as [b|] eqn:Hg; [done|].
    intros [= <- <-]. unfold timer_validateClientEndTime. simpl.
    by rewrite mapGet_mapSet, decide_True.
  - intros c tol. unfold timer_getBuild, timer_validateClientEndTime.
    by intros ->.
Qed.

(** X22.  [clearBuild] forgets one build and nothing else: afterwards
    [getBuild] finds nothing under the id and the id can be started again,
    the other builds are as before, and clearing an id that is not stored
    changes nothing.  After [clearAllBuilds], [getAllBuilds] is empty. *)
Theorem timer_clearBuild_spec i t :
  timer_getBuild i (timer_clearBuild i t) = None ∧
  (∀ j, j ≠ i →
        timer_getBuild j (timer_clearBuild i t) = timer_getBuild j t) ∧
  (∀ now, (timer_startBuild now i (timer_clearBuild i t)).1
          = Returns (mkTimerResult i now None None TRunning true)) ∧
  (timer_getBuild i t = None → timer_clearBuild i t = t) ∧
  timer_getAllBuilds (timer_clearAllBuilds t) = [].
Proof.
  unfold timer_getBuild, timer_clearBuild. simpl.
  split; [|split; [|split; [|split]]].
  - by rewrite mapGet_mapDelete, decide_True.
  - intros j Hj. by rewrite mapGet_mapDelete, decide_False.
  - intros now. unfold timer_startBuild, mapHas. simpl.
    by rewrite mapGet_mapDelete, decide_True.
  - intros Hg. rewrite mapDelete_absent by done. by destruct t.
  - done.
Qed.

Lemma timerStep_options o t : tm_options (timerStep o t) = tm_options t.
Proof.
  destruct o as [now i|now i st|i|]; simpl; try done.
  - unfold timer_startBuild. by destruct (mapHas i (tm_builds t)).
  - unfold timer_stopBuild. destruct (mapGet i (tm_builds t)) as [b|]; [|done].
    by destruct (decide (tr_status b = TRunning)).
Qed.

Lemma timerStep_wf o t : timerWf t → timerWf (timerStep o t).
Proof.
  intros [Hnd Hall]. destruct o as [now i|now i st|i|]; simpl.
  - unfold timer_startBuild, mapHas.
    destruct (mapGet i (tm_builds t)) eqn:Hg; [done|]. simpl.
    split; simpl; [by apply NoDup_mapSet|].
    intros k r [[-> ->]|Hin]%elem_of_mapSet; [|by apply Hall].
    split; [done|]. by left.
  - unfold timer_stopBuild.
    destruct (mapGet i (tm_builds t)) as [b|] eqn:Hg; [|done].
    destruct (decide (tr_status b = TRunning)); [|done]. simpl.
    split; simpl; [by apply NoDup_mapSet|].
    intros k r [[-> ->]|Hin]%elem_of_mapSet; [|by apply Hall].
    destruct (Hall i b (mapGet_elem_of _ _ _ Hg)) as [Hid _].
    split; [done|]. right. split; [by destruct st|]. simpl. by eexists.
  - split; simpl; [by apply NoDup_mapDelete|].
    intros k r [_ Hin]%list_elem_of_filter. by apply Hall.
  - split; simpl; [apply NoDup_nil_2|].
    intros k r Hin. by apply elem_of_nil in Hin.
Qed.

Lemma timerRun_wf ops : ∀ t,
  timerWf t →
  timerWf (timerRun ops t) ∧ tm_options (timerRun ops t) = tm_options t.
Proof.
  induction ops as [|o ops IH]; intros t Hwf; [done|]. simpl.
  destruct (IH (timerStep o t)) as [H1 H2]; [by apply timerStep_wf|].
  split; [done|]. by rewrite H2, timerStep_options.
Qed.

(** X23.  Whatever methods are called on a new timer, in whatever order and
    with whatever times, [getAllBuilds] never lists an id twice, [getBuild]
    finds every listed result under its id, and every listed result is
    either running with no end and no duration, or stopped with
    duration = endTime - startTime and isValid equal to the verdict of the
    configured bounds on that duration; the bounds are those given when the
    timer was made. *)
Theorem timer_results_consistent ops max min :
  NoDup (tr_buildId <$> timer_getAllBuilds (timerRun ops (newBuildTimer max min))) ∧
  tm_options (timerRun ops (newBuildTimer max min))
    = mkTimerOptions max (default 0 min) ∧
  ∀ r, r ∈ timer_getAllBuilds (timerRun ops (newBuildTimer max min)) →
       consistent (mkTimerOptions max (default 0 min)) r ∧
       timer_getBuild (tr_buildId r) (timerRun ops (newBuildTimer max min))
         = Some r.
Proof.
  destruct (timerRun_wf ops (newBuildTimer max min)) as [[Hnd Hall] Hopt].
  { split; simpl; [apply NoDup_nil_2|]. intros k r Hin.
    by apply elem_of_nil in Hin. }
  simpl in Hopt. rewrite Hopt in Hall.
  set (t := timerRun ops (newBuildTimer max min)) in *.
  unfold timer_getAllBuilds, timer_getBuild, mapValues.
  split; [|split; [done|]].
  - rewrite <- list_fmap_compose.
    rewrite (list_fmap_ext (tr_buildId ∘ snd) fst); [done|].
    intros n [k r] Hn. simpl. apply (Hall k r).
    apply list_elem_of_lookup. eauto.
  - intros r ([k r'] & -> & Hin)%list_elem_of_fmap. simpl.
    destruct (Hall k r' Hin) as [Hid Hc]. split; [done|].
    rewrite Hid. by apply elem_of_mapGet.
Qed.

(** * The further properties on concrete runs *)

Lemma ex_world_nonNegative sch : nonNegative (db (ex_world sch)).
Proof.
  unfold nonNegative, ex_world, ex_ledger; simpl.
  apply map_Forall_singleton. simpl. lia.
Qed.

Lemma startBuild_lock_refused_witness :
  ∃ w',
    startBuild ex_stranger (ex_fresh 10)
      = (Throw LockNotSupportedOnGivenDriverError, w') ∧
    db w' = db (ex_fresh 10) ∧ tx w' = None.
Proof.
  destruct (startBuild_lock_refused ex_stranger (ex_fresh 10))
    as (e & w' & E & Hdb & _ & He).
  - reflexivity.
  - destruct He as [-> Ht]; [by constructor|]. by exists w'.
Defined.

Lemma getBuild_lookup_witness :
  (getBuild "a" (ex_world [])).1 = Ok (ex_build "a" 300 RUNNING) ∧
  db (getBuild "a" (ex_world [])).2 = db (ex_world []).
Proof.
  destruct (getBuild_lookup "a" (ex_world []) (ex_world_keyed []))
    as (r & w' & E & Hdb & _ & Hq & _).
  rewrite E. simpl. split; [|exact Hdb].
  rewrite (Hq ltac:(constructor)). vm_compute. reflexivity.
Defined.

Lemma getUserBuilds_listing_witness :
  ∃ l w',
    getUserBuilds "u1" (ex_world []) = (Ok l, w') ∧
    ex_build "d" 100 COMPLETED ∈ l ∧
    StronglySorted (fun a b => startTime b ≤ startTime a) l ∧
    db w' = db (ex_world []).
Proof.
  assert (∃ l w', getUserBuilds "u1" (ex_world []) = (Ok l, w'))
    as (l & w' & E) by (do 2 eexists; vm_compute; reflexivity).
  destruct (getUserBuilds_listing _ _ l w' E) as (Hin & _ & Hs & Hdb & _).
  exists l, w'. repeat split; try assumption.
  apply Hin. split; [|reflexivity]. exists "d". vm_compute. reflexivity.
Defined.

Lemma getRunningBuilds_listing_witness :
  ∃ l w',
    getRunningBuilds (ex_world []) = (Ok l, w') ∧
    ex_build "c" 1300 RUNNING ∈ l ∧
    StronglySorted byExecuteAt l ∧
    findDue 1000 (db (ex_world [])) ≡ₚ filter (fun b => executeAt b ≤ 1000) l.
Proof.
  assert (∃ l w', getRunningBuilds (ex_world []) = (Ok l, w'))
    as (l & w' & E) by (do 2 eexists; vm_compute; reflexivity).
  destruct (getRunningBuilds_listing _ l w' E) as (Hin & Hs & _ & Hd).
  exists l, w'. repeat split; try assumption; [|apply Hd].
  apply Hin. split; [|reflexivity]. exists "c". vm_compute. reflexivity.
Defined.

Lemma completeBuild_confined_witness :
  users (db (completeBuild "a" FAILED (ex_world ex_hiccup)).2)
    = users (db (ex_world ex_hiccup)) ∧
  builds (db (completeBuild "a" FAILED (ex_world ex_hiccup)).2) !! "b"
    = builds (db (ex_world ex_hiccup)) !! "b".
Proof.
  destruct (completeBuild_confined "a" FAILED (ex_world ex_hiccup)
              (ex_world_keyed _)) as (Hu & _ & Ho & _).
  split; [exact Hu|]. apply Ho. discriminate.
Defined.

Lemma completeBuild_missing_witness :
  ∃ w',
    completeBuild "zz" COMPLETED (ex_world [])
      = (Throw (NotFoundException "Build zz not found"), w') ∧
    db w' = db (ex_world []).
Proof.
  destruct (completeBuild_missing "zz" COMPLETED (ex_world []))
    as (e & w' & E & Hdb & He).
  - vm_compute. reflexivity.
  - exists w'. rewrite E, (He ltac:(constructor)). by split.
Defined.

Lemma processCompletedBuilds_confined_witness :
  users (db (processCompletedBuilds (ex_world ex_outage)).2)
    = users (db (ex_world ex_outage)) ∧
  builds (db (processCompletedBuilds (ex_world ex_outage)).2) !! "c"
    = Some (ex_build "c" 1300 RUNNING) ∧
  builds (db (processCompletedBuilds (ex_world ex_outage)).2) !! "d"
    = Some (ex_build "d" 100 COMPLETED).
Proof.
  destruct (processCompletedBuilds_confined (ex_world ex_outage)
              (ex_world_keyed _)) as (Hu & _ & Hall).
  split; [exact Hu|]. split.
  - apply (Hall "c"); [vm_compute; reflexivity|].
    unfold isDue. simpl. lia.
  - apply (Hall "d"); [vm_compute; reflexivity|].
    unfold isDue. simpl. intros [? _]. discriminate.
Defined.

Lemma recoverCompletedBuilds_confined_witness :
  users (db (recoverCompletedBuilds (ex_world ex_outage)).2)
    = users (db (ex_world ex_outage)) ∧
  builds (db (recoverCompletedBuilds (ex_world ex_outage)).2) !! "c"
    = Some (ex_build "c" 1300 RUNNING) ∧
  builds (db (recoverCompletedBuilds (ex_world ex_outage)).2) !! "d"
    = Some (ex_build "d" 100 COMPLETED).
Proof.
  destruct (recoverCompletedBuilds_confined (ex_world ex_outage)
              (ex_world_keyed _)) as (Hu & _ & Hall).
  split; [exact Hu|]. split.
  - apply (Hall "c"); [vm_compute; reflexivity|].
    unfold isDue. simpl. lia.
  - apply (Hall "d"); [vm_compute; reflexivity|].
    unfold isDue. simpl. intros [? _]. discriminate.
Defined.


Lemma run_keeps_tables_sound_witness :
  keyed (db (performAll ex_ops (ex_world ex_outage))) ∧
  nonNegative (db (performAll ex_ops (ex_world ex_outage))).
Proof.
  exact (run_keeps_tables_sound ex_ops (ex_world ex_outage)
           (ex_world_keyed _) (ex_world_nonNegative _)).
Defined.

Lemma run_accounted_witness :
  held Wood "u1" (db (performAll ex_ops (ex_world ex_outage)))
  + paid Wood "u1" (db (performAll ex_ops (ex_world ex_outage)))
  = 10.
Proof.
  rewrite (run_accounted ex_ops (ex_world ex_outage) Wood "u1"
             (ex_world_keyed _)).
  vm_compute. reflexivity.
Defined.

Lemma run_records_persist_witness :
  ∃ b', builds (db (performAll ex_ops (ex_world ex_outage))) !! "a" = Some b' ∧
        sameCore (ex_build "a" 300 RUNNING) b'.
Proof.
  apply (run_records_persist ex_ops (ex_world ex_outage) "a"
           (ex_build "a" 300 RUNNING) (ex_world_keyed _)).
  vm_compute. reflexivity.
Defined.

Lemma run_terminal_final_witness :
  builds (db (performAll ex_ops (ex_world ex_outage))) !! "d"
  = Some (ex_build "d" 100 COMPLETED).
Proof.
  apply (run_terminal_final ex_ops (ex_world ex_outage) "d"
           (ex_build "d" 100 COMPLETED) (ex_world_keyed _)).
  - vm_compute. reflexivity.
  - discriminate.
Defined.

Lemma timer_stopBuild_spec_witness :
  ∃ r t',
    timer_stopBuild 150 "x" FinalFailed ex_timer = (Returns r, t') ∧
    tr_endTime r = Some 150 ∧ tr_duration r = Some (150 - 0) ∧
    tr_status r = TFailed ∧ tr_isValid r = true ∧
    timer_getBuild "x" t' = Some r.
Proof.
  destruct (timer_stopBuild_spec 150 "x" FinalFailed ex_timer
              (mkTimerResult "x" 0 None None TRunning true))
    as (r & t' & E & _ & _ & He & Hd & Hs & Hv & Hg & _);
    [reflexivity..|].
  exists r, t'. repeat split; try assumption.
  apply Hv. simpl. split; [lia|]. intros max [= <-]. lia.
Defined.

Lemma timer_stop_is_final_witness :
  ∃ t',
    (timer_stopBuild 150 "x" FinalCompleted ex_timer).2 = t' ∧
    timer_stopBuild 900 "x" FinalFailed t'
      = (Throws (timerMessage "x" " is not running"), t') ∧
    timer_startBuild 900 "x" t'
      = (Throws (timerMessage "x" " already exists"), t').
Proof.
  destruct (timer_stopBuild 150 "x" FinalCompleted ex_timer) as [o t'] eqn:E.
  assert (∃ r, o = Returns r) as [r ->].
  { vm_compute in E. injection E as <- _. by eexists. }
  destruct (timer_stop_is_final _ _ _ _ r t' E) as (H1 & H2 & _).
  exists t'. split; [reflexivity|]. split; [apply H1|apply H2].
Defined.

Lemma tick_completes_all_due_witness :
  ∃ w' t,
    processCompletedBuilds (ex_world [mkStep 3 None]) = (Ok tt, w') ∧
    1000 ≤ t ∧
    builds (db w') !! "a"
      = Some (completed (ex_build "a" 300 RUNNING) t COMPLETED) ∧
    builds (db w') !! "c" = Some (ex_build "c" 1300 RUNNING).
Proof.
  destruct (tick_completes_all_due (ex_world [mkStep 3 None])
              (ex_world_keyed _)) as (w' & E & _ & _ & _ & Hall);
    [by repeat constructor|reflexivity|].
  pose proof (Hall "a" (ex_build "a" 300 RUNNING) ltac:(vm_compute; reflexivity))
    as Ha.
  pose proof (Hall "c" (ex_build "c" 1300 RUNNING) ltac:(vm_compute; reflexivity))
    as Hc.
  rewrite decide_True in Ha by (split; [reflexivity|simpl; lia]).
  rewrite decide_False in Hc by (intros [_ ?]; simpl in *; lia).
  destruct Ha as (t & Ht & Ha). exists w', t. repeat split; assumption.
Defined.

Lemma sweep_completes_all_due_witness :
  ∃ w',
    recoverCompletedBuilds (ex_world [mkStep 3 None])
      = (Ok (length (filter (isDue 1000) (rows (db (ex_world []))))), w') ∧
    builds (db w') !! "d" = Some (ex_build "d" 100 COMPLETED).
Proof.
  destruct (sweep_completes_all_due (ex_world [mkStep 3 None])
              (ex_world_keyed _)) as (w' & E & _ & _ & Hall);
    [by repeat constructor|].
  pose proof (Hall "d" (ex_build "d" 100 COMPLETED) ltac:(vm_compute; reflexivity))
    as Hd.
  rewrite decide_False in Hd by (intros [? _]; discriminate).
  exists w'. split; [exact E|exact Hd].
Defined.
